(** * Netural/Snippets: the video widget and its YouTube loader

    A shallow embedding of [YouTubeService] and [VideoController]
    (src/classes/typescript/controllers/VideoController.ts) together with
    the properties of the written specification that concern them.

    Conventions of the embedding.
    - JavaScript numbers are exact rationals ([Q]); [NaN] and the
      infinities are outside the model.  [Math.floor] and [Math.round]
      return integers ([Z]).
    - JavaScript strings are [string]s: code units are one byte wide, so
      the only line terminators that occur are LF and CR.
    - A call that may raise returns a [completion].
    - The browser's timer table is a finite map from timer ids to the
      callbacks they run.
    - The vendor's iframe player is opaque: it is an abstract type with
      the methods the controller calls on it. *)

From stdpp Require Import gmap.
From Stdlib Require Import ZArith QArith Qround Lqa List String Ascii Bool Lia.
Import ListNotations.

Local Close Scope Q_scope.
Local Open Scope string_scope.
Local Open Scope list_scope.

(** ** JavaScript preliminaries *)

Module JS.

(** What a [throw] carries. *)
Inductive exn : Type :=
| Error (message : string)
| TypeError
| IndexSizeError.

Inductive completion (A : Type) : Type :=
| Normal (a : A)
| Throw (e : exn).
Arguments Normal {A} a.
Arguments Throw {A} e.

#[global] Instance completion_bind : MBind completion :=
  fun A B (f : A -> completion B) (m : completion A) =>
    match m with
    | Normal a => f a
    | Throw e => Throw e
    end.

#[global] Instance completion_ret : MRet completion := fun A a => Normal a.

(** [try { body } catch (ex) { }] around a body that updates a state. *)
Definition try_catch_nothing {A} (before : A) (body : completion A) : A :=
  match body with
  | Normal after => after
  | Throw _ => before
  end.

Definition raises {A} (m : completion A) : bool :=
  match m with
  | Normal _ => false
  | Throw _ => true
  end.

(** Truthiness of a string-or-null value: [null] and [""] are falsy. *)
Definition truthy (v : option string) : option string :=
  match v with
  | Some EmptyString => None
  | other => other
  end.

End JS.

(** ** YouTubeService *)

Module YouTubeService.

Definition iframe_api : string := "https://www.youtube.com/iframe_api".

Section Service.
(** [Api] is the vendor's [YT] object, [Cb] the callbacks handed to
    [loadAPI].  The service never looks inside either: a callback is
    called, returns, and leaves the service alone; each call is
    recorded in the page's [invoked] trace. *)
Context {Api Cb : Type}.

Record Service : Type := {
  _isLoadingAPI : bool;
  _API : option Api;
  _callbacks : list Cb
}.

(** The part of the page the service touches. *)
Record Page : Type := {
  YT : option Api;                 (* window.YT *)
  onYouTubeIframeAPIReady : bool;  (* the hook is installed *)
  scripts : list string;           (* src of the script tags appended to body *)
  invoked : list Cb                (* callbacks called so far, oldest first *)
}.

Record State : Type := { service : Service; window : Page }.

Definition fresh : State :=
  {| service := {| _isLoadingAPI := false; _API := None; _callbacks := [] |};
     window := {| YT := None; onYouTubeIframeAPIReady := false;
                  scripts := []; invoked := [] |} |}.

Definition call (s : State) (cb : Cb) : State :=
  {| service := service s;
     window := {| YT := YT (window s);
                  onYouTubeIframeAPIReady := onYouTubeIframeAPIReady (window s);
                  scripts := scripts (window s);
                  invoked := invoked (window s) ++ [cb] |} |}.

(** [for (i = 0; i < max; i++) this._callbacks[i]();  this._callbacks = []] *)
Definition _resolveCallbacks (s : State) : State :=
  let s' := fold_left call (_callbacks (service s)) s in
  {| service := {| _isLoadingAPI := _isLoadingAPI (service s');
                   _API := _API (service s');
                   _callbacks := [] |};
     window := window s' |}.

Definition _loadAPI (s : State) : State :=
  if _isLoadingAPI (service s) then s
  else
    {| service := {| _isLoadingAPI := true;
                     _API := _API (service s);
                     _callbacks := _callbacks (service s) |};
       window := {| YT := YT (window s);
                    onYouTubeIframeAPIReady := true;
                    scripts := scripts (window s) ++ [iframe_api];
                    invoked := invoked (window s) |} |}.

(** The closure stored in [window.onYouTubeIframeAPIReady]. *)
Definition ready_hook (s : State) : State :=
  _resolveCallbacks
    {| service := {| _isLoadingAPI := false;
                     _API := YT (window s);
                     _callbacks := _callbacks (service s) |};
       window := window s |}.

(** The vendor script defines [window.YT] and calls the hook, when
    there is one. *)
Definition vendor_ready (api : Api) (s : State) : option State :=
  if onYouTubeIframeAPIReady (window s) then
    Some (ready_hook
            {| service := service s;
               window := {| YT := Some api;
                            onYouTubeIframeAPIReady := true;
                            scripts := scripts (window s);
                            invoked := invoked (window s) |} |})
  else None.

(** [callback] is [Some] when [typeof callback === 'function']. *)
Definition loadAPI (callback : option Cb) (s : State) : State :=
  let s1 :=
    match callback with
    | Some cb =>
        {| service := {| _isLoadingAPI := _isLoadingAPI (service s);
                         _API := _API (service s);
                         _callbacks := _callbacks (service s) ++ [cb] |};
           window := window s |}
    | None => s
    end in
  match _API (service s1) with
  | Some _ => _resolveCallbacks s1
  | None => _loadAPI s1
  end.

(** [get API()] returns a value and may start the load. *)
Definition get_API (s : State) : option Api * State :=
  match _API (service s) with
  | None => (None, _loadAPI s)
  | Some api => (Some api, s)
  end.

(** [set API(value)] *)
Definition set_API (value : option Api) (s : State) : JS.completion State :=
  JS.Throw (JS.Error "Setting the API is not allowed").


End Service.

Arguments Service : clear implicits.
Arguments Page : clear implicits.
Arguments State : clear implicits.

End YouTubeService.

(** ** Regular expressions

    The fragment of JavaScript's backtracking matcher that the two
    regular expressions of the source need: literals, [.], [\w], negated
    classes, [^], concatenation, ordered alternation, the greedy star of
    a one-character atom, and capturing groups. *)

Module RegExp.

Inductive atom : Type :=
| Lit (c : ascii)             (* a literal character *)
| Dot                         (* .   *)
| WordChar                    (* \w  *)
| NoneOf (cs : list ascii).   (* [^...] *)

Definition is_line_terminator (c : ascii) : bool :=
  (c =? "010")%char || (c =? "013")%char.

Definition is_word_char (c : ascii) : bool :=
  let n := nat_of_ascii c in
  (((48 <=? n) && (n <=? 57)) || ((65 <=? n) && (n <=? 90))
   || ((97 <=? n) && (n <=? 122)) || (n =? 95))%nat.

Definition atom_matches (a : atom) (c : ascii) : bool :=
  match a with
  | Lit c' => (c =? c')%char
  | Dot => negb (is_line_terminator c)
  | WordChar => is_word_char c
  | NoneOf cs => negb (existsb (Ascii.eqb c) cs)
  end.

Inductive regex : Type :=
| Eps
| Bol                          (* ^ *)
| One (a : atom)
| Cat (r1 r2 : regex)
| Alt (r1 r2 : regex)          (* r1|r2, r1 tried first *)
| Star (a : atom)              (* a*, greedy *)
| Group (i : nat) (r : regex). (* the i-th capturing group *)

(** A run of atoms, one after the other. *)
Fixpoint seq (pattern : list atom) : regex :=
  match pattern with
  | [] => Eps
  | a :: pattern' => Cat (One a) (seq pattern')
  end.

Definition lits (t : string) : list atom := Lit <$> list_ascii_of_string t.

(** Literal text. *)
Definition text (t : string) : regex := seq (lits t).

(** The match array: index 0 is the whole match, index i the i-th group. *)
Abbreviation captures := (gmap nat string).

(** What remains to be matched: the position reached, the rest of the
    input, and the groups captured so far. *)
Definition cont : Type := nat -> string -> captures -> option captures.

Fixpoint star (a : atom) (k : cont) (pos : nat) (s : string) (caps : captures)
  : option captures :=
  match s with
  | String c s' =>
      if atom_matches a c then
        match star a k (S pos) s' caps with
        | Some m => Some m
        | None => k pos s caps
        end
      else k pos s caps
  | EmptyString => k pos s caps
  end.

Fixpoint exec (r : regex) (k : cont) (pos : nat) (s : string) (caps : captures)
  : option captures :=
  match r with
  | Eps => k pos s caps
  | Bol => if (pos =? 0)%nat then k pos s caps else None
  | One a =>
      match s with
      | String c s' => if atom_matches a c then k (S pos) s' caps else None
      | EmptyString => None
      end
  | Cat r1 r2 => exec r1 (exec r2 k) pos s caps
  | Alt r1 r2 =>
      match exec r1 k pos s caps with
      | Some m => Some m
      | None => exec r2 k pos s caps
      end
  | Star a => star a k pos s caps
  | Group i r1 =>
      exec r1 (fun pos' s' caps' =>
                 k pos' s' (<[i := substring 0 (pos' - pos) s]> caps'))
           pos s caps
  end.

Definition accept : cont := fun _ _ caps => Some caps.

(** What is left of [s] after a run of atoms has matched its front. *)
Fixpoint strip (pattern : list atom) (s : string) : option string :=
  match pattern, s with
  | [], _ => Some s
  | a :: pattern', String c s' =>
      if atom_matches a c then strip pattern' s' else None
  | _ :: _, EmptyString => None
  end.

(** The longest front of [s] made of characters that match [a], and
    what follows it. *)
Fixpoint span (a : atom) (s : string) : string * string :=
  match s with
  | String c s' =>
      if atom_matches a c then (String c (span a s').1, (span a s').2)
      else (EmptyString, s)
  | EmptyString => (EmptyString, EmptyString)
  end.

Fixpoint all (a : atom) (s : string) : bool :=
  match s with
  | String c s' => atom_matches a c && all a s'
  | EmptyString => true
  end.

(** Every suffix of [s] (itself included) satisfies [p]. *)
Fixpoint every_suffix (p : string -> bool) (s : string) : bool :=
  p s && match s with
         | String _ s' => every_suffix p s'
         | EmptyString => true
         end.

Definition tail (s : string) : string :=
  match s with
  | String _ s' => s'
  | EmptyString => EmptyString
  end.

(** A regular expression without the [g] flag is tried at every start
    index from the left. *)
Fixpoint search (r : regex) (pos : nat) (s : string) : option captures :=
  match exec (Group 0 r) accept pos s ∅ with
  | Some m => Some m
  | None =>
      match s with
      | String _ s' => search r (S pos) s'
      | EmptyString => None
      end
  end.

(** [s.match(r)]: the match array, or [None] for [null]. *)
Definition String_match (s : string) (r : regex) : option captures :=
  search r 0 s.

End RegExp.

Module YouTubeId.
Import RegExp.

(** Group 1: youtu.be\/ | v\/ | u\/\w\/ | embed\/ | watch\?v= | \&v= *)
Definition youtu_be : list atom := lits "youtu" ++ [Dot] ++ lits "be/".
Definition v : list atom := lits "v/".
Definition u_w : list atom := lits "u/" ++ [WordChar] ++ lits "/".
Definition embed : list atom := lits "embed/".
Definition watch_v : list atom := lits "watch?v=".
Definition amp_v : list atom := lits "&v=".

Definition shapes : regex :=
  Alt (seq youtu_be) (Alt (seq v) (Alt (seq u_w) (Alt (seq embed)
    (Alt (seq watch_v) (seq amp_v))))).

(** The class of group 2: [^#\&\?] *)
Definition id_char : atom := NoneOf ["#"; "&"; "?"]%char.

(** The source's literal is /^.*(G1)(G2).*/ with G1 the alternation
    above and G2 the starred class. *)
Definition regex : RegExp.regex :=
  Cat Bol (Cat (Star Dot) (Cat (Group 1 shapes)
                               (Cat (Group 2 (Star id_char)) (Star Dot)))).

(** Two continuations of a run of [regex]: what follows the leading
    star, and what closes group 0 on a match. *)
Definition from_shape (k : cont) : cont :=
  exec (Cat (Group 1 shapes) (Cat (Group 2 (Star id_char)) (Star Dot))) k.

Definition whole (url : string) : cont :=
  fun pos' s' caps' => accept pos' s' (<[0%nat := substring 0 (pos' - 0) url]> caps').

(** The first shape, in the order of the alternation, that the front of
    [t] matches, given by what follows it. *)
Definition shape_rest (t : string) : option string :=
  foldr (fun pattern otherwise =>
           match strip pattern t with
           | Some rest => Some rest
           | None => otherwise
           end)
        None [youtu_be; v; u_w; embed; watch_v; amp_v].

Definition no_shape (t : string) : bool :=
  match shape_rest t with
  | Some _ => false
  | None => true
  end.

(** Nothing, or something that begins with one of # & ? *)
Definition delimited (suffix : string) : bool :=
  match suffix with
  | String c _ => negb (atom_matches id_char c)
  | EmptyString => true
  end.

(** [match[2].length] raises a TypeError when [match[2]] is undefined. *)
Definition parseYouTubeId (youtubeURL : string) : JS.completion (option string) :=
  match String_match youtubeURL regex with
  | Some m =>
      match m !! 2%nat with
      | Some id =>
          if (String.length id =? 11)%nat then JS.Normal (Some id)
          else JS.Normal None
      | None => JS.Throw JS.TypeError
      end
  | None => JS.Normal None
  end.

End YouTubeId.


(** ** The browser objects the controller drives *)

Module Math.
Definition floor (x : Q) : Z := Qfloor x.
(** [Math.round] rounds to the nearest integer, halves upwards. *)
Definition round (x : Q) : Z := Qfloor (x + (1 # 2))%Q.
(** [x < y] on numbers. *)
Definition lt (x y : Q) : bool := negb (Qle_bool y x).
End Math.

Module Number.
Definition digit (d : Z) : ascii := ascii_of_nat (48 + Z.to_nat d).

Fixpoint digits (fuel : nat) (n : Z) : string :=
  match fuel with
  | O => ""
  | S fuel' =>
      if (n <? 10)%Z then String (digit n) ""
      else digits fuel' (n / 10) ++ String (digit (n mod 10)) ""
  end.

(** The decimal numeral of an integer, as ['' + n] produces it. *)
Definition toString (n : Z) : string :=
  if (n <? 0)%Z then "-" ++ digits (S (Z.to_nat (- n))) (- n)
  else digits (S (Z.to_nat n)) n.
End Number.

(** The pattern MM:SS: two digits, a colon, two digits. *)
Module Format.
Definition is_digit (c : ascii) : bool :=
  ((48 <=? nat_of_ascii c) && (nat_of_ascii c <=? 57))%nat.

Definition is_MMSS (s : string) : bool :=
  match s with
  | String m1 (String m2 (String colon (String s1 (String s2 EmptyString)))) =>
      is_digit m1 && is_digit m2 && (colon =? ":")%char && is_digit s1 && is_digit s2
  | _ => false
  end.
End Format.

Module TimeRanges.
(** The ranges in the order the browser reports them. *)
Definition t : Type := list (Q * Q).

Definition start (buffer : t) (index : nat) : JS.completion Q :=
  match buffer !! index with
  | Some (s, _) => JS.Normal s
  | None => JS.Throw JS.IndexSizeError
  end.

Definition end_ (buffer : t) (index : nat) : JS.completion Q :=
  match buffer !! index with
  | Some (_, e) => JS.Normal e
  | None => JS.Throw JS.IndexSizeError
  end.

(** The range holds the time: start <= time <= end. *)
Definition holds (time : Q) (range : Q * Q) : Prop :=
  (range.1 <= time /\ time <= range.2)%Q.
End TimeRanges.

Module HTMLVideoElement.
Record t : Type := {
  paused : bool;
  muted : bool;
  currentTime : Q;
  duration : Q;
  buffered : TimeRanges.t
}.

(** [play()] on an element that is allowed to play. *)
Definition play (v : t) : t :=
  {| paused := false; muted := muted v; currentTime := currentTime v;
     duration := duration v; buffered := buffered v |}.

Definition pause (v : t) : t :=
  {| paused := true; muted := muted v; currentTime := currentTime v;
     duration := duration v; buffered := buffered v |}.

Definition set_muted (b : bool) (v : t) : t :=
  {| paused := paused v; muted := b; currentTime := currentTime v;
     duration := duration v; buffered := buffered v |}.

(** [v.currentTime = time]: the seek request as the page makes it. *)
Definition set_currentTime (time : Q) (v : t) : t :=
  {| paused := paused v; muted := muted v; currentTime := time;
     duration := duration v; buffered := buffered v |}.

(** [load()] on an element whose sources were deferred: the resource
    selection it starts is asynchronous. *)
Definition load (v : t) : t := v.
End HTMLVideoElement.

Module YT.
(** [window.YT] once the vendor script has run. *)
Inductive Api : Type := namespace.

(** The vendor's player, as far as the controller uses it.  What a
    method does to the player is the vendor's business. *)
Class Player (P : Type) : Type := {
  create : Api -> option string -> Z -> P;  (* new API.Player(node, {videoId, autoplay}) *)
  playVideo : P -> P;
  pauseVideo : P -> P;
  mute : P -> P;
  unMute : P -> P;
  seekTo : Q -> P -> P;
  getPlayerState : P -> Z;
  getDuration : P -> Q;
  getCurrentTime : P -> Q;
  isMuted : P -> bool
}.

(** A player that has carried out a request by the time the call
    returns. *)
Class Immediate (P : Type) `{Player P} : Prop := {
  playVideo_state : forall p, getPlayerState (playVideo p) = 1%Z;
  pauseVideo_state : forall p, getPlayerState (pauseVideo p) <> 1%Z;
  mute_isMuted : forall p, isMuted (mute p) = true;
  unMute_isMuted : forall p, isMuted (unMute p) = false
}.
End YT.

(** ** The DOM around a widget *)

Module DOM.

Record Element : Type := { is_body : bool; classes : gset string }.

(** A descendant that may carry a deferred source. *)
Record SourceElement : Type := { src : option string; data_src : option string }.

(** The nodes the controller writes to.  A style value is the number
    in front of the percent sign; [None] is a style never assigned. *)
Record View : Type := {
  classList : gset string;                   (* of the root, this.$() *)
  currentTimeElement_classList : gset string;
  currentTimeElement_innerText : string;
  lengthElement_innerText : string;
  progressBarElement_width : option Q;
  bufferBarElement_width : option Z;
  bufferBarElement_left : option Z
}.

(** The container a widget is constructed on.  [nodes] lists the class
    selectors that find a descendant; [markup] is the state of the
    labels and bars, which the rendering functions take to be there. *)
Record Container : Type := {
  data_external : option string;       (* getAttribute('data-external'), None for null *)
  parents : list Element;              (* the parentElement chain, nearest first *)
  descendants : list SourceElement;
  videos : list HTMLVideoElement.t;    (* this.$('video') *)
  nodes : gset string;
  markup : View
}.

(** [this.$(selector)[0]] and [querySelector(selector)] find a node. *)
Definition found (selector : string) (element : Container) : bool :=
  bool_decide (selector ∈ nodes element).

Definition add (klass : string) (l : gset string) : gset string := {[klass]} ∪ l.
Definition remove (klass : string) (l : gset string) : gset string := l ∖ {[klass]}.
Definition contains (klass : string) (l : gset string) : bool := bool_decide (klass ∈ l).

Definition with_classList (f : gset string -> gset string) (v : View) : View :=
  {| classList := f (classList v);
     currentTimeElement_classList := currentTimeElement_classList v;
     currentTimeElement_innerText := currentTimeElement_innerText v;
     lengthElement_innerText := lengthElement_innerText v;
     progressBarElement_width := progressBarElement_width v;
     bufferBarElement_width := bufferBarElement_width v;
     bufferBarElement_left := bufferBarElement_left v |}.

Definition with_currentTimeElement_classList (f : gset string -> gset string) (v : View) : View :=
  {| classList := classList v;
     currentTimeElement_classList := f (currentTimeElement_classList v);
     currentTimeElement_innerText := currentTimeElement_innerText v;
     lengthElement_innerText := lengthElement_innerText v;
     progressBarElement_width := progressBarElement_width v;
     bufferBarElement_width := bufferBarElement_width v;
     bufferBarElement_left := bufferBarElement_left v |}.

(** The three assignments that end [timeUpdate]. *)
Definition with_progress (width : Q) (current length : string) (v : View) : View :=
  {| classList := classList v;
     currentTimeElement_classList := currentTimeElement_classList v;
     currentTimeElement_innerText := current;
     lengthElement_innerText := length;
     progressBarElement_width := Some width;
     bufferBarElement_width := bufferBarElement_width v;
     bufferBarElement_left := bufferBarElement_left v |}.

Definition with_lengthElement_innerText (length : string) (v : View) : View :=
  {| classList := classList v;
     currentTimeElement_classList := currentTimeElement_classList v;
     currentTimeElement_innerText := currentTimeElement_innerText v;
     lengthElement_innerText := length;
     progressBarElement_width := progressBarElement_width v;
     bufferBarElement_width := bufferBarElement_width v;
     bufferBarElement_left := bufferBarElement_left v |}.

(** The two assignments that end [bufferUpdate]. *)
Definition with_buffer (width left : Z) (v : View) : View :=
  {| classList := classList v;
     currentTimeElement_classList := currentTimeElement_classList v;
     currentTimeElement_innerText := currentTimeElement_innerText v;
     lengthElement_innerText := lengthElement_innerText v;
     progressBarElement_width := progressBarElement_width v;
     bufferBarElement_width := Some width;
     bufferBarElement_left := Some left |}.

(** utils: [firstParentByClass(element, klass)] *)
Fixpoint firstParentByClass (element : Element) (parents : list Element) (klass : string)
  : option Element :=
  match parents with
  | [] => None
  | parent :: rest =>
      if is_body element then None
      else if contains klass (classes element) then Some element
      else firstParentByClass parent rest klass
  end.

(** [element.setAttribute('src', element.getAttribute('data-src'));
    element.removeAttribute('data-src')] on every node that has a
    [data-src]. *)
Definition undefer (e : SourceElement) : SourceElement :=
  match data_src e with
  | Some _ => {| src := data_src e; data_src := None |}
  | None => e
  end.

(** The browser's table of repeating timers. *)
Inductive handler : Type :=
| TimeUpdate           (* the widget's [() => this.timeUpdate()] *)
| Other (n : nat).     (* any other code of the page *)

Record Interval : Type := { run : handler; delay : Z }.

Record Timers : Type := { active : gmap nat Interval; next : nat }.

Definition setInterval (h : handler) (ms : Z) (t : Timers) : nat * Timers :=
  (next t, {| active := <[next t := {| run := h; delay := ms |}]> (active t);
              next := S (next t) |}).

(** [clearInterval(id)]; an [undefined] id clears nothing. *)
Definition clearInterval (id : option nat) (t : Timers) : Timers :=
  match id with
  | Some i => {| active := delete i (active t); next := next t |}
  | None => t
  end.

End DOM.

(** ** VideoController *)

Module VideoController.
Import DOM.

Inductive PlayerState : Type := ENDED | PLAYING | PAUSED | BUFFERING | CUED.

(** A TypeScript enum numbers its members from 0 in declaration order. *)
Definition PlayerState_value (s : PlayerState) : Z :=
  match s with
  | ENDED => 0 | PLAYING => 1 | PAUSED => 2 | BUFFERING => 3 | CUED => 4
  end.

Definition PlayerState_of (data : Z) : option PlayerState :=
  match data with
  | 0%Z => Some ENDED | 1%Z => Some PLAYING | 2%Z => Some PAUSED
  | 3%Z => Some BUFFERING | 4%Z => Some CUED | _ => None
  end.

(** The closures queued at the loader. *)
Inductive Callback : Type :=
| InitYouTubePlayer (external : string)  (* () => this.initYouTubePlayer(external) *)
| Foreign (n : nat).                     (* a callback of other code *)

Definition is_playing : string := "video--is-playing".
Definition is_muted : string := "video--is-muted".
Definition is_hidden : string := "is-hidden".

(** /youtu/ *)
Definition youtu : RegExp.regex := RegExp.text "youtu".

Section Widget.
Context {P : Type} {player : YT.Player P}.

Record Controller : Type := {
  element : Container;
  view : View;
  sources : list SourceElement;
  videoElement : option HTMLVideoElement.t;
  youtubePlayer : option P;
  youTubeTimer : option nat;
  muted : bool
}.

Definition with_view (f : View -> View) (c : Controller) : Controller :=
  {| element := element c; view := f (view c); sources := sources c;
     videoElement := videoElement c; youtubePlayer := youtubePlayer c;
     youTubeTimer := youTubeTimer c; muted := muted c |}.

(** The same call on whichever backend is there. *)
Definition with_backends (f : HTMLVideoElement.t -> HTMLVideoElement.t) (g : P -> P)
    (c : Controller) : Controller :=
  {| element := element c; view := view c; sources := sources c;
     videoElement := f <$> videoElement c; youtubePlayer := g <$> youtubePlayer c;
     youTubeTimer := youTubeTimer c; muted := muted c |}.

Definition with_muted (b : bool) (c : Controller) : Controller :=
  {| element := element c; view := view c; sources := sources c;
     videoElement := videoElement c; youtubePlayer := youtubePlayer c;
     youTubeTimer := youTubeTimer c; muted := b |}.

Definition with_youTubeTimer (id : nat) (c : Controller) : Controller :=
  {| element := element c; view := view c; sources := sources c;
     videoElement := videoElement c; youtubePlayer := youtubePlayer c;
     youTubeTimer := Some id; muted := muted c |}.

(** Each getter returns [None] for the [undefined] it yields when no
    backend is there. *)
Definition getDuration (c : Controller) : option Q :=
  match videoElement c with
  | Some v => Some (HTMLVideoElement.duration v)
  | None => YT.getDuration <$> youtubePlayer c
  end.

Definition getCurrentTime (c : Controller) : option Q :=
  match videoElement c with
  | Some v => Some (HTMLVideoElement.currentTime v)
  | None => YT.getCurrentTime <$> youtubePlayer c
  end.

Definition isPlaying (c : Controller) : option bool :=
  match videoElement c with
  | Some v => Some (negb (HTMLVideoElement.paused v))
  | None =>
      (fun p => (YT.getPlayerState p =? PlayerState_value PLAYING)%Z)
        <$> youtubePlayer c
  end.

Definition play (c : Controller) : Controller :=
  with_view (with_classList (add is_playing))
    (with_backends HTMLVideoElement.play YT.playVideo c).

Definition pause (c : Controller) : Controller :=
  with_view (with_classList (remove is_playing))
    (with_backends HTMLVideoElement.pause YT.pauseVideo c).

(** [undefined] is falsy. *)
Definition togglePlayPause (c : Controller) : Controller :=
  match isPlaying c with
  | Some true => pause c
  | _ => play c
  end.

Definition mute (c : Controller) : Controller :=
  with_view (with_classList (add is_muted))
    (with_backends (HTMLVideoElement.set_muted true) YT.mute
       (with_muted true c)).

Definition volumeOn (c : Controller) : Controller :=
  with_view (with_classList (remove is_muted))
    (with_backends (HTMLVideoElement.set_muted false) YT.unMute
       (with_muted false c)).

Definition toggleVolume (c : Controller) : Controller :=
  if muted c then volumeOn c else mute c.

Definition zeroPad (n : Z) : string :=
  if (n <? 10)%Z then "0" ++ Number.toString n else Number.toString n ++ "".

Definition generateTimeIndicator (seconds : Q) : string :=
  let minutes := Math.floor (seconds / 60)%Q in
  let seconds := Math.round (seconds - inject_Z minutes * 60)%Q in
  zeroPad minutes ++ ":" ++ zeroPad seconds.

(** Without a backend both readings are [undefined]: the percentage
    is NaN, the comparison is false, the width assigned is not a
    width, and both labels read NaN:NaN. *)
Definition timeUpdate (c : Controller) : Controller :=
  match getCurrentTime c, getDuration c with
  | Some currentTime, Some maxduration =>
      let percentage := (100 * currentTime / maxduration)%Q in
      let c1 :=
        if Math.lt percentage 99.99%Q then
          with_view (with_currentTimeElement_classList (remove is_hidden)) c
        else
          with_view (with_classList (remove is_playing))
            (with_view (with_currentTimeElement_classList (add is_hidden)) c) in
      with_view (with_progress percentage
                   (generateTimeIndicator currentTime)
                   (generateTimeIndicator maxduration)) c1
  | _, _ =>
      with_view (fun v =>
        {| classList := remove is_playing (classList v);
           currentTimeElement_classList := add is_hidden (currentTimeElement_classList v);
           currentTimeElement_innerText := "NaN:NaN";
           lengthElement_innerText := "NaN:NaN";
           progressBarElement_width := progressBarElement_width v;
           bufferBarElement_width := bufferBarElement_width v;
           bufferBarElement_left := bufferBarElement_left v |}) c
  end.

(** The while loop of [bufferUpdate]: [rest] is what [buffer] holds
    from index [range] on; past the last range [buffer.start(range)]
    raises. *)
Fixpoint scan (rest : TimeRanges.t) (range : nat) (time : Q) : JS.completion nat :=
  match rest with
  | [] => JS.Throw JS.IndexSizeError
  | (s, e) :: rest' =>
      if Qle_bool s time && Qle_bool time e then JS.Normal range
      else scan rest' (S range) time
  end.

Definition bufferUpdate (c : Controller) : Controller :=
  JS.try_catch_nothing c
    (video ← match videoElement c with
             | Some v => JS.Normal v
             | None => JS.Throw JS.TypeError
             end;
     let buffer := HTMLVideoElement.buffered video in
     let time := HTMLVideoElement.currentTime video in
     range ← scan buffer 0 time;
     s ← TimeRanges.start buffer range;
     let loadStartPercentage := (s / HTMLVideoElement.duration video * 100)%Q in
     e ← TimeRanges.end_ buffer range;
     let loadEndPercentage := (e / HTMLVideoElement.duration video * 100)%Q in
     let loadPercentage := (loadEndPercentage - loadStartPercentage)%Q in
     JS.Normal (with_view (with_buffer (Math.round loadPercentage)
                                       (Math.round loadStartPercentage)) c)).

(** The click listener of the progress track.  Without a backend the
    time is NaN and neither guard holds. *)
Definition onProgressClick (layerX clientWidth : Z) (c : Controller) : Controller :=
  match getDuration c with
  | Some duration =>
      let percentage := (inject_Z layerX / inject_Z clientWidth * 100)%Q in
      let time := Math.round (percentage * duration / 100)%Q in
      with_backends (HTMLVideoElement.set_currentTime (inject_Z time))
                    (YT.seekTo (inject_Z time)) c
  | None => c
  end.

Definition willDestroy (c : Controller) : Controller := pause c.

(** *** The widget in its page *)

Record World : Type := {
  this : Controller;
  timers : Timers;
  loader : YouTubeService.State YT.Api Callback
}.

Definition on_this (f : Controller -> Controller) (w : World) : World :=
  {| this := f (this w); timers := timers w; loader := loader w |}.

(** The [onStateChange] listener handed to the player. *)
Definition onStateChange (data : Z) (w : World) : World :=
  let w1 :=
    match PlayerState_of data with
    | Some ENDED =>
        {| this := with_view (with_classList (remove is_playing)) (this w);
           timers := clearInterval (youTubeTimer (this w)) (timers w);
           loader := loader w |}
    | Some PLAYING =>
        let cleared := clearInterval (youTubeTimer (this w)) (timers w) in
        let '(id, started) := setInterval TimeUpdate 300 cleared in
        {| this := with_youTubeTimer id
                     (with_view (with_classList (add is_playing)) (this w));
           timers := started;
           loader := loader w |}
    | Some BUFFERING => on_this timeUpdate w
    | Some PAUSED =>
        {| this := with_view (with_classList (remove is_playing)) (this w);
           timers := clearInterval (youTubeTimer (this w)) (timers w);
           loader := loader w |}
    | Some CUED => on_this timeUpdate w
    | None => w
    end in
  on_this timeUpdate w1.

(** The [loadedmetadata] listener of the native element. *)
Definition onLoadedMetadata (c : Controller) : Controller :=
  match videoElement c with
  | Some v =>
      with_view (with_lengthElement_innerText
                   (generateTimeIndicator (HTMLVideoElement.duration v))) c
  | None => c
  end.

Definition root (c : Controller) : Element :=
  {| is_body := false; classes := classList (view c) |}.

Definition in_modal (c : Controller) : bool :=
  match firstParentByClass (root c) (parents (element c)) "modal" with
  | Some _ => true
  | None => false
  end.

(** [initControls] binds the nodes and adds a click listener to the
    two buttons, to the fullscreen button (or disables it) and to the
    progress track; on a node that was not found each of these raises
    a TypeError.  A widget starts without a backend, without a timer
    and unmuted. *)
Definition initControls (element : Container) : JS.completion Controller :=
  if found ".video__play_pause" element
     && found ".video__volume" element
     && found ".video__fullscreen" element
     && found ".video__progress" element
  then
    JS.Normal
      {| element := element; view := markup element; sources := descendants element;
         videoElement := None; youtubePlayer := None;
         youTubeTimer := None; muted := false |}
  else JS.Throw JS.TypeError.

Definition initVideoPlayer (c : Controller) : JS.completion Controller :=
  match videos (element c) with
  | [] => JS.Throw (JS.Error "No video element found!")
  | video :: _ =>
      JS.Normal
        {| element := element c; view := view c; sources := sources c;
           videoElement := Some video; youtubePlayer := youtubePlayer c;
           youTubeTimer := youTubeTimer c; muted := muted c |}
  end.

(** [this.youTubeService.API] is read twice: in the guard and as the
    constructor's namespace.  In between, the placeholder is appended
    to the wrapper, which raises a TypeError when there is none. *)
Definition initYouTubePlayer (youTubeURL : string) (w : World) : JS.completion World :=
  let '(guard, l1) := YouTubeService.get_API (loader w) in
  match guard with
  | None => JS.Throw (JS.Error "No YouTube API available")
  | Some _ =>
      if found ".video__wrapper" (element (this w)) then
        let '(api, l2) := YouTubeService.get_API l1 in
        match api with
        | None => JS.Throw JS.TypeError
        | Some yt =>
            videoId ← YouTubeId.parseYouTubeId youTubeURL;
            let autoplay := if in_modal (this w) then 1%Z else 0%Z in
            let c := this w in
            JS.Normal
              {| this := {| element := element c; view := view c; sources := sources c;
                            videoElement := videoElement c;
                            youtubePlayer := Some (YT.create yt videoId autoplay);
                            youTubeTimer := youTubeTimer c; muted := muted c |};
                 timers := timers w;
                 loader := l2 |}
        end
      else JS.Throw JS.TypeError
  end.

(** The bodies of the callbacks the loader has called. *)
Definition run_callback (cb : Callback) (w : World) : JS.completion World :=
  match cb with
  | InitYouTubePlayer external => initYouTubePlayer external w
  | Foreign _ => JS.Normal w
  end.

Fixpoint run_callbacks (cbs : list Callback) (w : World) : JS.completion World :=
  match cbs with
  | [] => JS.Normal w
  | cb :: rest => w' ← run_callback cb w; run_callbacks rest w'
  end.

Definition called (before after : YouTubeService.State YT.Api Callback) : list Callback :=
  drop (List.length (YouTubeService.invoked (YouTubeService.window before)))
       (YouTubeService.invoked (YouTubeService.window after)).

(** [new VideoController(element)] in a page with the given timers and
    loader. *)
Definition constructor (element : Container) (page_timers : Timers)
    (service : YouTubeService.State YT.Api Callback) : JS.completion World :=
  c ← initControls element;
  w ← match JS.truthy (data_external element) with
      | Some external =>
          match RegExp.String_match external youtu with
          | Some _ =>
              let service' :=
                YouTubeService.loadAPI (Some (InitYouTubePlayer external)) service in
              run_callbacks (called service service')
                {| this := c; timers := page_timers; loader := service' |}
          | None => JS.Throw (JS.Error "Unsupportet third partie video")
          end
      | None =>
          c' ← initVideoPlayer
                 {| element := element; view := view c;
                    sources := undefer <$> sources c;
                    videoElement := videoElement c; youtubePlayer := youtubePlayer c;
                    youTubeTimer := youTubeTimer c; muted := muted c |};
          JS.Normal {| this := with_backends HTMLVideoElement.load id c';
                       timers := page_timers; loader := service |}
      end;
  if in_modal (this w) then JS.Normal (on_this play w) else JS.Normal w.

(** The nodes the constructor, and the player's construction that it
    may run, reach for. *)
Definition complete (element : Container) : bool :=
  found ".video__play_pause" element
  && found ".video__volume" element
  && found ".video__fullscreen" element
  && found ".video__progress" element
  && found ".video__wrapper" element.

(** The vendor script has run: the loader resolves its queue and the
    queued bodies run. *)
Definition onYouTubeIframeAPIReady (w : World) : option (JS.completion World) :=
  match YouTubeService.vendor_ready YT.namespace (loader w) with
  | Some service' =>
      Some (run_callbacks (called (loader w) service')
              {| this := this w; timers := timers w; loader := service' |})
  | None => None
  end.

(** What can happen to a constructed widget. *)
Inductive event : Type :=
| StateChange (data : Z)               (* the player reports a state *)
| Tick (id : nat)                      (* the timer [id] is due *)
| PlayPauseClick
| VolumeClick
| ProgressClick (layerX clientWidth : Z)
| VideoProgress                        (* progress on the native element *)
| VideoTimeUpdate                      (* timeupdate on the native element *)
| LoadedMetadata
| VideoChanged (v : HTMLVideoElement.t)  (* the native element moves on *)
| PlayerChanged (p : P)                  (* the vendor player moves on *)
| PageSetInterval (n : nat) (ms : Z)     (* other code starts a timer *)
| Destroy.

Definition handle (e : event) (w : World) : World :=
  match e with
  | StateChange data => onStateChange data w
  | Tick id =>
      match run <$> active (timers w) !! id with
      | Some TimeUpdate => on_this timeUpdate w
      | _ => w
      end
  | PlayPauseClick => on_this togglePlayPause w
  | VolumeClick => on_this toggleVolume w
  | ProgressClick layerX clientWidth => on_this (onProgressClick layerX clientWidth) w
  | VideoProgress => on_this bufferUpdate w
  | VideoTimeUpdate => on_this timeUpdate w
  | LoadedMetadata => on_this onLoadedMetadata w
  | VideoChanged v => on_this (with_backends (fun _ => v) id) w
  | PlayerChanged p => on_this (with_backends id (fun _ => p)) w
  | PageSetInterval n ms =>
      {| this := this w; timers := (setInterval (Other n) ms (timers w)).2;
         loader := loader w |}
  | Destroy => on_this willDestroy w
  end.

Definition handle_all (events : list event) (w : World) : World :=
  fold_left (fun w e => handle e w) events w.

(** The running polls of the widget. *)
Definition poll (w : World) (id : nat) : bool :=
  match run <$> active (timers w) !! id with
  | Some TimeUpdate => true
  | _ => false
  end.

(** A page in which the widget has no timer yet: none of the timers
    is its poll, and every id in use is below the next one. *)
Definition clean (w : World) : bool :=
  match youTubeTimer (this w) with
  | None =>
      forallb (fun entry : nat * Interval =>
                 (entry.1 <? next (timers w))%nat
                 && match run entry.2 with
                    | TimeUpdate => false
                    | Other _ => true
                    end)
              (map_to_list (active (timers w)))
  | Some _ => false
  end.

(** Every running poll is the one the widget remembers, and every id
    in use is below the next one. *)
Definition tidy (w : World) : Prop :=
  (forall id, poll w id = true -> youTubeTimer (this w) = Some id) /\
  (forall id, is_Some (active (timers w) !! id) -> (id < next (timers w))%nat).

End Widget.

Arguments Controller : clear implicits.
Arguments World : clear implicits.
Arguments event : clear implicits.

End VideoController.

(** ** A player that reacts at once

    The simplest implementation of the vendor interface: the state a
    request asks for is the state the player is in when the call
    returns. *)

Module PromptPlayer.

Record t : Type := {
  state : Z;
  muted : bool;
  currentTime : Q;
  duration : Q;
  videoId : option string
}.

#[global] Instance player : YT.Player t := {|
  YT.create := fun _ id autoplay =>
    {| state := (-1); muted := false;
       currentTime := 0; duration := 0; videoId := id |};
  YT.playVideo := fun p =>
    {| state := 1; muted := muted p; currentTime := currentTime p;
       duration := duration p; videoId := videoId p |};
  YT.pauseVideo := fun p =>
    {| state := 2; muted := muted p; currentTime := currentTime p;
       duration := duration p; videoId := videoId p |};
  YT.mute := fun p =>
    {| state := state p; muted := true; currentTime := currentTime p;
       duration := duration p; videoId := videoId p |};
  YT.unMute := fun p =>
    {| state := state p; muted := false; currentTime := currentTime p;
       duration := duration p; videoId := videoId p |};
  YT.seekTo := fun seconds p =>
    {| state := state p; muted := muted p; currentTime := seconds;
       duration := duration p; videoId := videoId p |};
  YT.getPlayerState := state;
  YT.getDuration := duration;
  YT.getCurrentTime := currentTime;
  YT.isMuted := muted
|}.

End PromptPlayer.

(** ** Sample widgets *)

Module Samples.
Import DOM VideoController.

Definition blank : View :=
  {| classList := ∅; currentTimeElement_classList := ∅;
     currentTimeElement_innerText := ""; lengthElement_innerText := "";
     progressBarElement_width := None;
     bufferBarElement_width := None; bufferBarElement_left := None |}.

(** A clip of forty seconds, ten seconds in, with two buffered ranges. *)
Definition clip : HTMLVideoElement.t :=
  {| HTMLVideoElement.paused := true;
     HTMLVideoElement.muted := false;
     HTMLVideoElement.currentTime := 10;
     HTMLVideoElement.duration := 40;
     HTMLVideoElement.buffered := [(0, 5); (8, 30)]%Q |}.

(** The selectors of the player template. *)
Definition template : gset string :=
  {[ ".video__wrapper"; ".video__play_pause"; ".video__volume";
     ".video__fullscreen"; ".video__progress"; ".video__progress_buffer";
     ".video__progress_bar"; ".video__progress_time"; ".video__length" ]}.

Definition native_markup : Container :=
  {| data_external := None; parents := []; descendants := [];
     videos := [clip]; nodes := template; markup := blank |}.

(** The native widget as constructed. *)
Definition native : Controller PromptPlayer.t :=
  {| element := native_markup; view := blank; sources := [];
     videoElement := Some clip; youtubePlayer := None;
     youTubeTimer := None; muted := false |}.

(** The same clip playing at its very end: the render of that moment
    has taken the playing class away again. *)
Definition at_the_end : Controller PromptPlayer.t :=
  timeUpdate
    (play {| element := native_markup; view := blank; sources := [];
             videoElement :=
               Some {| HTMLVideoElement.paused := true;
                       HTMLVideoElement.muted := false;
                       HTMLVideoElement.currentTime := 40;
                       HTMLVideoElement.duration := 40;
                       HTMLVideoElement.buffered := [(0, 40)]%Q |};
             youtubePlayer := None;
             youTubeTimer := None; muted := false |}).

Definition external_markup : Container :=
  {| data_external := Some "https://youtu.be/dQw4w9WgXcQ"; parents := [];
     descendants := []; videos := []; nodes := template; markup := blank |}.

(** A YouTube widget whose player has not been built yet. *)
Definition waiting : Controller PromptPlayer.t :=
  {| element := external_markup; view := blank; sources := [];
     videoElement := None; youtubePlayer := None;
     youTubeTimer := None; muted := false |}.

(** A YouTube widget with its player, paused and in step with it. *)
Definition embedded : Controller PromptPlayer.t :=
  {| element := external_markup; view := blank; sources := [];
     videoElement := None;
     youtubePlayer := Some {| PromptPlayer.state := 2; PromptPlayer.muted := false;
                              PromptPlayer.currentTime := 0;
                              PromptPlayer.duration := 212;
                              PromptPlayer.videoId := Some "dQw4w9WgXcQ" |};
     youTubeTimer := None; muted := false |}.

(** A container with a video child whose external marker names another
    provider, and one whose marker is present but empty. *)
Definition other_provider : Container :=
  {| data_external := Some "https://vimeo.com/76979871"; parents := [];
     descendants := []; videos := [clip]; nodes := template; markup := blank |}.

Definition empty_marker : Container :=
  {| data_external := Some ""; parents := [];
     descendants := [{| src := None; data_src := Some "clip.mp4" |}];
     videos := [clip]; nodes := template; markup := blank |}.

(** The YouTube container without its play button. *)
Definition no_play_button : Container :=
  {| data_external := Some "https://youtu.be/dQw4w9WgXcQ"; parents := [];
     descendants := []; videos := [];
     nodes := template ∖ {[ ".video__play_pause" ]}; markup := blank |}.

Definition no_timers : Timers := {| active := ∅; next := 0 |}.

(** The embedded widget in a page where other code runs one timer. *)
Definition page : World PromptPlayer.t :=
  {| this := embedded;
     timers := {| active := {[ 0%nat := {| run := Other 0; delay := 1000 |} ]};
                  next := 1 |};
     loader := {| YouTubeService.service :=
                    {| YouTubeService._isLoadingAPI := false;
                       YouTubeService._API := Some YT.namespace;
                       YouTubeService._callbacks := [] |};
                  YouTubeService.window :=
                    {| YouTubeService.YT := Some YT.namespace;
                       YouTubeService.onYouTubeIframeAPIReady := true;
                       YouTubeService.scripts := [YouTubeService.iframe_api];
                       YouTubeService.invoked :=
                         [InitYouTubePlayer "https://youtu.be/dQw4w9WgXcQ"] |} |} |}.

End Samples.

(** ** The loader in use

    What the page can do with the loader, in any order: register (with
    or without a callback), read [API], and let the vendor script report
    in. *)

Module YouTubeServiceRun.
Import YouTubeService.

Section Run.
Context {Api Cb : Type}.

Inductive op : Type :=
| LoadAPI (callback : option Cb)
| ReadAPI
| VendorReady (api : Api).

(** The vendor script calls the hook only when there is one. *)
Definition step (s : State Api Cb) (o : op) : State Api Cb :=
  match o with
  | LoadAPI callback => loadAPI callback s
  | ReadAPI => (get_API s).2
  | VendorReady api =>
      match vendor_ready api s with
      | Some s' => s'
      | None => s
      end
  end.

Definition run (ops : list op) (s : State Api Cb) : State Api Cb :=
  fold_left step ops s.


(** What holds of the loader at rest. *)
Definition settled (s : State Api Cb) : Prop :=
  match scripts (window s) with
  | [] =>
      _isLoadingAPI (service s) = false /\ _API (service s) = None
      /\ onYouTubeIframeAPIReady (window s) = false
  | [tag] =>
      tag = iframe_api /\ onYouTubeIframeAPIReady (window s) = true
      /\ (_isLoadingAPI (service s) = true /\ _API (service s) = None
          \/ _isLoadingAPI (service s) = false /\ is_Some (_API (service s))
             /\ _callbacks (service s) = [])
  | _ => False
  end.

End Run.

Arguments op : clear implicits.

End YouTubeServiceRun.

(** ** Text helpers

    [intelligentCutText] and the two string methods it calls.  A length
    argument goes through the language's conversion to an integer
    (truncation towards zero) and is clamped to the string. *)

Module Text.

Definition toIntegerOrInfinity (x : Q) : Z :=
  if Qle_bool 0 x then Qfloor x else Qceiling x.

(** [s.substr(0, length)]. *)
Definition substr_0 (length : Q) (s : string) : string :=
  substring 0 (Z.to_nat (toIntegerOrInfinity length)) s.

(** [s.lastIndexOf(searchString)]: the greatest position at which
    [searchString] starts, [-1] when there is none. *)
Fixpoint lastIndexOf (searchString s : string) : Z :=
  match s with
  | EmptyString => if prefix searchString s then 0 else -1
  | String _ rest =>
      let later := lastIndexOf searchString rest in
      if (0 <=? later)%Z then (1 + later)%Z
      else if prefix searchString s then 0%Z else (-1)%Z
  end.

(** The third parameter defaults to three dots. *)
Definition intelligentCutText (text : string) (maxCharacters : Q) (append : option string)
    : string :=
  let append := default "..." append in
  if Math.lt maxCharacters (inject_Z (Z.of_nat (String.length text))) then
    substr_0 (inject_Z (lastIndexOf " " (substr_0 maxCharacters text))) text ++ append
  else text.

End Text.

(** ** Image loading

    [loadImage] leaves three handlers with the browser: the timer's, and
    the image's [onload] and [onerror].  A [Loading] holds the variables
    the three close over; [deliver] runs the handler of a signal and
    lists the callbacks it calls.  The timer's handler runs only while
    the timer is pending. *)

Module Images.

Inductive signal : Type := Timeout | Load | Error.
Inductive call : Type := OnSuccess | OnError.

#[global] Instance signal_eq_dec : EqDecision signal.
Proof. solve_decision. Defined.

Record Loading : Type := {
  src : option string;
  isTimedOut : bool;
  timer : option Z
}.

(** The delay is the literal 2000, whatever is passed as [timeout].
    [src] is what [image.src] is assigned, [None] for [undefined]. *)
Definition loadImage (src : option string) (timeout : option Q) : Loading :=
  {| src := src; isTimedOut := false; timer := Some 2000%Z |}.

Definition clearTimeout (l : Loading) : Loading :=
  {| src := src l; isTimedOut := isTimedOut l; timer := None |}.

Definition deliver (sg : signal) (l : Loading) : Loading * list call :=
  match sg with
  | Timeout =>
      match timer l with
      | Some _ => ({| src := src l; isTimedOut := true; timer := None |}, [OnError])
      | None => (l, [])
      end
  | Load => (clearTimeout l, if isTimedOut l then [] else [OnSuccess])
  | Error => (clearTimeout l, if isTimedOut l then [] else [OnError])
  end.

Fixpoint deliver_all (signals : list signal) (l : Loading) : Loading * list call :=
  match signals with
  | [] => (l, [])
  | sg :: rest =>
      let '(l', now) := deliver sg l in
      let '(l'', later) := deliver_all rest l' in
      (l'', now ++ later)
  end.

(** The image fires at most one of its two events. *)
Definition is_event (sg : signal) : bool :=
  match sg with
  | Timeout => false
  | Load | Error => true
  end.

Definition one_event (signals : list signal) : Prop :=
  (List.length (List.filter is_event signals) <= 1)%nat.

(** What [loadImages] is given: an element, of which the [img]
    descendants count, or an array of strings. *)
Record HTMLImageElement : Type := { img_src : string; img_srcset : string }.

Inductive Root : Type :=
| Element (imgs : list HTMLImageElement)
| Sources (array : list string).

Inductive Image : Type :=
| Img (imageElement : HTMLImageElement)
| Str (imageElement : string).

Definition images (rootOrImageSources : Root) : list Image :=
  match rootOrImageSources with
  | Element imgs => Img <$> imgs
  | Sources array => Str <$> array
  end.

(** [!!imageElement.src && (imageElement.src.length > 3) ?
    imageElement.src : imageElement.srcset]; a string has neither
    property. *)
Definition chosen (imageElement : Image) : option string :=
  match imageElement with
  | Img e =>
      if negb (String.eqb (img_src e) "") && (3 <? String.length (img_src e))%nat
      then Some (img_src e) else Some (img_srcset e)
  | Str _ => None
  end.

Record Batch : Type := {
  loadings : list Loading;
  currentIndex : nat;
  max : nat;
  hasErrors : bool;
  calls : list call
}.

Definition loadImages (rootOrImageSources : Root) : Batch :=
  let images := images rootOrImageSources in
  {| loadings := (fun imageElement => loadImage (chosen imageElement) None) <$> images;
     currentIndex := 0;
     max := List.length images;
     hasErrors := false;
     calls := [] |}.

Definition updateIndex (b : Batch) : Batch :=
  if (currentIndex b =? max b)%nat then
    {| loadings := loadings b; currentIndex := currentIndex b; max := max b;
       hasErrors := hasErrors b;
       calls := calls b ++ [if hasErrors b then OnError else OnSuccess] |}
  else b.

(** The two callbacks [loadImages] hands to [loadImage]. *)
Definition settle (b : Batch) (c : call) : Batch :=
  match c with
  | OnSuccess =>
      updateIndex {| loadings := loadings b; currentIndex := S (currentIndex b);
                     max := max b; hasErrors := hasErrors b; calls := calls b |}
  | OnError =>
      updateIndex {| loadings := loadings b; currentIndex := S (currentIndex b);
                     max := max b; hasErrors := true; calls := calls b |}
  end.

(** A signal for the image at [index]. *)
Definition dispatch (b : Batch) (event : nat * signal) : Batch :=
  match loadings b !! event.1 with
  | None => b
  | Some l =>
      let '(l', cs) := deliver event.2 l in
      fold_left settle cs
        {| loadings := <[event.1 := l']> (loadings b); currentIndex := currentIndex b;
           max := max b; hasErrors := hasErrors b; calls := calls b |}
  end.

Definition run (events : list (nat * signal)) (b : Batch) : Batch :=
  fold_left dispatch events b.

(** An image is through once its timer ran out or was cleared. *)
Definition through (l : Loading) : bool :=
  match timer l with
  | None => true
  | Some _ => false
  end.

Definition signals_for (index : nat) (events : list (nat * signal)) : list signal :=
  omap (fun event : nat * signal =>
          if (event.1 =? index)%nat then Some event.2 else None) events.

(** Every image fires at most one of its two events. *)
Definition one_event_each (events : list (nat * signal)) : Prop :=
  forall index, one_event (signals_for index events).

End Images.

(** ** Inserting into the tree

    The three insertion helpers, over the child list of the one parent
    they touch.  A node is in at most one place: inserting it takes it
    out of where it was.  [insertBefore] and [appendChild] are the
    platform's, with the two checks that can fail for an element put
    below an element. *)

Module Tree.

Inductive nodeType : Type := ELEMENT_NODE | TEXT_NODE | COMMENT_NODE.

Record Node : Type := { id : nat; type : nodeType }.

#[global] Instance nodeType_eq_dec : EqDecision nodeType.
Proof. solve_decision. Defined.

#[global] Instance Node_eq_dec : EqDecision Node.
Proof. solve_decision. Defined.

Inductive exn : Type := TypeError | HierarchyRequestError | NotFoundError.

Inductive completion (A : Type) : Type :=
| Normal (a : A)
| Throw (e : exn).

Arguments Normal {A} a.
Arguments Throw {A} e.

Definition is_element (node : Node) : bool :=
  bool_decide (type node = ELEMENT_NODE).

Definition firstChild (childNodes : list Node) : option Node := head childNodes.

Fixpoint nextSibling (node : Node) (childNodes : list Node) : option Node :=
  match childNodes with
  | [] => None
  | x :: rest => if decide (x = node) then head rest else nextSibling node rest
  end.

Fixpoint nextElementSibling (node : Node) (childNodes : list Node) : option Node :=
  match childNodes with
  | [] => None
  | x :: rest =>
      if decide (x = node) then List.find is_element rest
      else nextElementSibling node rest
  end.

Definition remove (node : Node) (childNodes : list Node) : list Node :=
  List.filter (fun x => negb (bool_decide (x = node))) childNodes.

(** Put [node] before [reference], at the end when there is none. *)
Fixpoint place (node reference : Node) (childNodes : list Node) : list Node :=
  match childNodes with
  | [] => []
  | x :: rest =>
      if decide (x = reference) then node :: x :: rest
      else x :: place node reference rest
  end.

(** Where an element is: under no node, or in the child list of a
    node that is an element or is not (a fragment, the document). *)
Inductive Position : Type :=
| Detached
| Under (parentIsElement : bool) (childNodes : list Node).

Definition siblings (position : Position) : list Node :=
  match position with
  | Detached => []
  | Under _ childNodes => childNodes
  end.

Definition parentElement (position : Position) : option (list Node) :=
  match position with
  | Under true childNodes => Some childNodes
  | _ => None
  end.

Section Parent.
(** Whether a node is the parent or one of its ancestors. *)
Variable contains_parent : Node -> bool.

Definition appendChild (node : Node) (childNodes : list Node)
    : completion (list Node) :=
  if contains_parent node then Throw HierarchyRequestError
  else Normal (remove node childNodes ++ [node]).

Definition insertBefore (node child : Node) (childNodes : list Node)
    : completion (list Node) :=
  if contains_parent node then Throw HierarchyRequestError
  else if bool_decide (child ∈ childNodes) then
    let reference :=
      if decide (child = node) then nextSibling node childNodes else Some child in
    match reference with
    | Some reference => Normal (place node reference (remove node childNodes))
    | None => Normal (remove node childNodes ++ [node])
    end
  else Throw NotFoundError.

End Parent.

End Tree.

(** The helpers give the new child list of the parent they touch. *)

Module Helpers.
Import Tree.

Section Parent.
Variable contains_parent : Node -> bool.

Definition prepend (parentElement : list Node) (element : Node)
    : completion (list Node) :=
  match firstChild parentElement with
  | Some first => Tree.insertBefore contains_parent element first parentElement
  | None => appendChild contains_parent element parentElement
  end.

(** [refElement] is at [position]. *)
Definition insertBefore (element refElement : Node) (position : Position)
    : completion (list Node) :=
  match parentElement position with
  | Some childNodes => Tree.insertBefore contains_parent element refElement childNodes
  | None => Throw TypeError
  end.

Definition insertAfter (element refElement : Node) (position : Position)
    : completion (list Node) :=
  match nextElementSibling refElement (siblings position) with
  | Some next =>
      match parentElement position with
      | Some childNodes => Tree.insertBefore contains_parent element next childNodes
      | None => Throw TypeError
      end
  | None =>
      match parentElement position with
      | Some childNodes => appendChild contains_parent element childNodes
      | None => Throw TypeError
      end
  end.

End Parent.

End Helpers.

(** ** Serializing a form

    [encodeURIComponent] on strings of one-byte code units: the
    unreserved characters stay, every other becomes the percent escapes
    of its UTF-8 bytes (one below 128, two from there on). *)

Module URI.

Definition unreserved (c : ascii) : bool :=
  let n := N_of_ascii c in
  ((48 <=? n) && (n <=? 57) || (65 <=? n) && (n <=? 90) || (97 <=? n) && (n <=? 122))%N
  || existsb (Ascii.eqb c) (list_ascii_of_string "-_.!~*'()").

Definition hex (d : N) : ascii :=
  if (d <? 10)%N then ascii_of_N (48 + d) else ascii_of_N (55 + d).

Definition escape (byte : N) : string :=
  String "%" (String (hex (byte / 16)) (String (hex (byte mod 16)) EmptyString)).

Definition encode_unit (c : ascii) : string :=
  let n := N_of_ascii c in
  if unreserved c then String c EmptyString
  else if (n <? 128)%N then escape n
  else escape (192 + n / 64) ++ escape (128 + n mod 64).

Fixpoint encodeURIComponent (s : string) : string :=
  match s with
  | EmptyString => EmptyString
  | String c rest => encode_unit c ++ encodeURIComponent rest
  end.

End URI.

Module Form.
Import URI.

Record HTMLOptionElement : Type := { selected : bool; option_value : string }.

Record Control : Type := {
  nodeName : string;
  type : string;
  name : string;
  value : string;
  checked : bool;
  options : list HTMLOptionElement
}.

Record HTMLFormElement : Type := {
  form_nodeName : string;
  elements : list Control
}.

(** [Array.prototype.join]. *)
Fixpoint join (separator : string) (q : list string) : string :=
  match q with
  | [] => EmptyString
  | [x] => x
  | x :: rest => x ++ separator ++ join separator rest
  end.

Definition one_of (cases : list string) (s : string) : bool :=
  existsb (String.eqb s) cases.

Definition pair (e : Control) (value : string) : string :=
  name e ++ "=" ++ encodeURIComponent value.

(** One round of the loop: what the element at hand pushes. *)
Definition push (q : list string) (e : Control) : list string :=
  if String.eqb (name e) "" then q
  else if String.eqb (nodeName e) "INPUT" then
    if one_of ["text"; "hidden"; "password"; "button"; "reset"; "submit"] (type e)
    then q ++ [pair e (value e)]
    else if one_of ["checkbox"; "radio"] (type e)
    then (if checked e then q ++ [pair e (value e)] else q)
    else q
  else if String.eqb (nodeName e) "TEXTAREA" then q ++ [pair e (value e)]
  else if String.eqb (nodeName e) "SELECT" then
    if String.eqb (type e) "select-one" then q ++ [pair e (value e)]
    else if String.eqb (type e) "select-multiple"
    then q ++ ((fun o => pair e (option_value o))
                 <$> List.filter selected (rev (options e)))
    else q
  else if String.eqb (nodeName e) "BUTTON" then
    if one_of ["reset"; "submit"; "button"] (type e)
    then q ++ [pair e (value e)]
    else q
  else q.

(** The loop runs from the last element to the first. *)
Definition collected (elements : list Control) : list string :=
  fold_left push (rev elements) [].

(** [None] is [undefined]. *)
Definition serialize (form : option HTMLFormElement) : option string :=
  match form with
  | None => None
  | Some form =>
      if String.eqb (form_nodeName form) "FORM"
      then Some (join "&" (collected (elements form)))
      else None
  end.

Fixpoint every (p : ascii -> bool) (s : string) : bool :=
  match s with
  | EmptyString => true
  | String c rest => p c && every p rest
  end.

(** The characters of an encoded query: the unreserved ones, the
    percent sign and the two separators. *)
Definition query_char (c : ascii) : bool :=
  unreserved c || existsb (Ascii.eqb c) (list_ascii_of_string "%=&").

End Form.

(** * Properties *)

(** ** The loader *)

Module YouTubeServiceFacts.
Import YouTubeService.

Section Facts.
Context {Api Cb : Type}.
Implicit Types (s : State Api Cb) (cbs : list Cb) (cb : Cb).

Lemma fold_call cbs s :
  fold_left call cbs s =
  {| service := service s;
     window := {| YT := YT (window s);
                  onYouTubeIframeAPIReady := onYouTubeIframeAPIReady (window s);
                  scripts := scripts (window s);
                  invoked := invoked (window s) ++ cbs |} |}.
Proof.
  revert s. induction cbs as [|cb cbs IH]; intros [sv [yt hook tags inv]]; simpl.
  - by rewrite app_nil_r.
  - rewrite IH. simpl. by rewrite <- app_assoc.
Qed.






(** C10. Reading [API] before the vendor API has been captured
    returns null and runs [_loadAPI], which does nothing while a load
    is in flight and otherwise injects one script tag, installs the
    hook and marks the load as in flight; once the API has been
    captured, reading [API] returns the captured handle and leaves
    the state as it was. *)
Theorem C10_get_API_lazy_load s :
  (_API (service s) = None ->
     (get_API s).1 = None /\
     (get_API s).2 = _loadAPI s /\
     (_isLoadingAPI (service s) = true -> _loadAPI s = s) /\
     (_isLoadingAPI (service s) = false ->
        scripts (window (_loadAPI s)) = scripts (window s) ++ [iframe_api] /\
        onYouTubeIframeAPIReady (window (_loadAPI s)) = true /\
        _isLoadingAPI (service (_loadAPI s)) = true /\
        _API (service (_loadAPI s)) = None /\
        _callbacks (service (_loadAPI s)) = _callbacks (service s) /\
        invoked (window (_loadAPI s)) = invoked (window s))) /\
  (forall api, _API (service s) = Some api -> get_API s = (Some api, s)).
Proof.
  destruct s as [[loading api queue] page].
  unfold get_API, _loadAPI; simpl. split.
  - intros ->. split; [reflexivity |]. split; [reflexivity |].
    split; intros ->; simpl; auto 10.
  - intros api' ->. reflexivity.
Qed.

End Facts.


Lemma C10_witness :
  get_API (fresh (Api:=YT.Api) (Cb:=nat)) = (None, _loadAPI fresh) /\
  scripts (window (_loadAPI (fresh (Api:=YT.Api) (Cb:=nat)))) = [iframe_api].
Proof.
  destruct (C10_get_API_lazy_load (fresh (Api:=YT.Api) (Cb:=nat))) as [Hnone _].
  destruct (Hnone eq_refl) as (H1 & H2 & _ & Hload).
  destruct (Hload eq_refl) as (Hs & _).
  split.
  - destruct (get_API fresh) as [v s']. simpl in *. by subst.
  - exact Hs.
Defined.

End YouTubeServiceFacts.

(** ** The matcher *)

Module RegExpFacts.
Import RegExp.

Lemma exec_seq pattern (k : cont) pos s caps :
  exec (seq pattern) k pos s caps =
  match strip pattern s with
  | Some rest => k (pos + List.length pattern)%nat rest caps
  | None => None
  end.
Proof.
  revert pos s. induction pattern as [|a pattern IH]; intros pos s; simpl.
  - by rewrite Nat.add_0_r.
  - destruct s as [|c s']; [done |].
    destruct (atom_matches a c); [| done].
    rewrite IH. by rewrite Nat.add_succ_r.
Qed.

Lemma append_String c (u v : string) :
  (String c u ++ v)%string = String c (u ++ v)%string.
Proof. reflexivity. Qed.

Lemma append_Empty (v : string) : (EmptyString ++ v)%string = v.
Proof. reflexivity. Qed.

Ltac push_append := rewrite ?append_String, ?append_Empty in *.

Lemma span_append a s : ((span a s).1 ++ (span a s).2)%string = s.
Proof.
  induction s as [|c s IH]; simpl; [done |].
  destruct (atom_matches a c); simpl; push_append; [by f_equal | done].
Qed.

Lemma substring_front (u v : string) :
  substring 0 (String.length u) (u ++ v)%string = u.
Proof.
  induction u as [|c u IH]; push_append; simpl.
  - by destruct v.
  - by rewrite IH.
Qed.

Lemma substring_span a s : substring 0 (String.length (span a s).1) s = (span a s).1.
Proof.
  rewrite <- (span_append a s) at 2. apply substring_front.
Qed.

(** A front made of characters of the class, up to a character outside
    it, is the span. *)
Lemma span_delimited a (u v : string) :
  all a u = true ->
  match v with
  | String c _ => atom_matches a c = false
  | EmptyString => True
  end ->
  span a (u ++ v)%string = (u, v).
Proof.
  intros Hall Hv. induction u as [|c u IH]; push_append; simpl in *.
  - destruct v as [|c v]; simpl; [done |]. by rewrite Hv.
  - apply andb_true_iff in Hall as [-> Hall]. by rewrite (IH Hall).
Qed.

(** The greedy star hands over at the end of the span when the rest of
    the expression matches there. *)
Lemma star_span a (k : cont) pos s caps :
  is_Some (k (pos + String.length (span a s).1)%nat (span a s).2 caps) ->
  star a k pos s caps = k (pos + String.length (span a s).1)%nat (span a s).2 caps.
Proof.
  revert pos. induction s as [|c s IH]; intros pos; simpl.
  - by rewrite Nat.add_0_r.
  - destruct (atom_matches a c); simpl.
    + rewrite Nat.add_succ_r. intros Hk.
      rewrite (IH (S pos) Hk). simpl. by destruct Hk as [m ->].
    + by rewrite Nat.add_0_r.
Qed.

(** It gives characters back one at a time until the rest matches. *)
Lemma star_here a (k : cont) pos t caps :
  (forall u v : string, t = (u ++ v)%string -> u <> EmptyString ->
     k (pos + String.length u)%nat v caps = None) ->
  star a k pos t caps = k pos t caps.
Proof.
  revert pos. induction t as [|c t IH]; intros pos Hlater; simpl; [done |].
  destruct (atom_matches a c); [| done].
  rewrite IH.
  - specialize (Hlater (String c EmptyString) t eq_refl). simpl in Hlater.
    rewrite Nat.add_1_r in Hlater. by rewrite Hlater.
  - intros u v -> Hu.
    specialize (Hlater (String c u) v eq_refl). simpl in Hlater.
    rewrite Nat.add_succ_r in Hlater. by apply Hlater.
Qed.

Lemma star_app a (k : cont) pos (pre t : string) caps m :
  all a pre = true ->
  k (pos + String.length pre)%nat t caps = Some m ->
  (forall u v : string, t = (u ++ v)%string -> u <> EmptyString ->
     k (pos + String.length pre + String.length u)%nat v caps = None) ->
  star a k pos (pre ++ t)%string caps = Some m.
Proof.
  revert pos. induction pre as [|c pre IH]; intros pos Hall Hk Hlater;
    push_append; simpl in *.
  - rewrite Nat.add_0_r in *. by rewrite star_here.
  - apply andb_true_iff in Hall as [-> Hall].
    rewrite (IH (S pos)); [done | done | |].
    + by rewrite Nat.add_succ_r in Hk.
    + intros u v Ht Hu. rewrite <- (Hlater u v Ht Hu). f_equal. lia.
Qed.

Lemma star_Some a (k : cont) pos s caps m :
  star a k pos s caps = Some m ->
  exists n rest, k n rest caps = Some m.
Proof.
  revert pos. induction s as [|c s IH]; intros pos; simpl.
  - eauto.
  - destruct (atom_matches a c); [| eauto].
    destruct (star a k (S pos) s caps) eqn:Hstar; [| eauto].
    intros [= <-]. eauto.
Qed.

Lemma every_suffix_tail p (t u v : string) :
  every_suffix p (tail t) = true -> t = (u ++ v)%string -> u <> EmptyString ->
  p v = true.
Proof.
  intros Hall -> Hu. destruct u as [|c u]; [done |].
  push_append. simpl in Hall. clear Hu.
  induction u as [|c' u IH]; push_append; simpl in Hall.
  - destruct v; simpl in Hall; by apply andb_true_iff in Hall as [? _].
  - apply andb_true_iff in Hall as [_ Hall]. auto.
Qed.

End RegExpFacts.

(** ** parseYouTubeId *)

Module YouTubeIdFacts.
Import RegExp RegExpFacts YouTubeId.


(** After the alternation, the identifier class and the trailing star
    take all they can and the match is complete. *)
Lemma exec_id_tail (k : cont) pos s caps :
  (forall n rest c, is_Some (k n rest c)) ->
  exists m, exec (Cat (Group 2 (Star id_char)) (Star Dot)) k pos s caps = Some m /\
    exists n rest, k n rest (<[2%nat := (span id_char s).1]> caps) = Some m.
Proof.
  intros Hk. cbn [exec].
  rewrite star_span.
  - rewrite star_span by apply Hk.
    destruct (Hk (pos + String.length (span id_char s).1
                  + String.length (span Dot (span id_char s).2).1)%nat
                 (span Dot (span id_char s).2).2
                 (<[2%nat := substring 0 (pos + String.length (span id_char s).1 - pos) s]> caps))
      as [m Hm].
    exists m. split; [done |].
    replace (pos + String.length (span id_char s).1 - pos)%nat
      with (String.length (span id_char s).1) in Hm by lia.
    rewrite substring_span in Hm. eauto.
  - rewrite star_span by apply Hk. apply Hk.
Qed.

Lemma exec_shapes (k : cont) pos t caps :
  (forall n rest c, is_Some (k n rest c)) ->
  match shape_rest t with
  | Some rest => exists n, exec shapes k pos t caps = k n rest caps
  | None => exec shapes k pos t caps = None
  end.
Proof.
  intros Hk. unfold shapes, shape_rest. cbn [exec foldr].
  rewrite !exec_seq.
  repeat match goal with
  | |- context [strip ?p t] =>
      destruct (strip p t) as [rest|];
      [ match goal with
        | |- context [k ?n rest caps] =>
            destruct (Hk n rest caps) as [m Hm]; rewrite Hm; eauto
        end
      | ]
  end.
  done.
Qed.

Lemma from_shape_spec (k : cont) pos t caps :
  (forall n rest c, is_Some (k n rest c)) ->
  match shape_rest t with
  | Some rest =>
      exists m, from_shape k pos t caps = Some m /\
        exists n rest' c, k n rest' (<[2%nat := (span id_char rest).1]> c) = Some m
  | None => from_shape k pos t caps = None
  end.
Proof.
  intros Hk. unfold from_shape. cbn [exec].
  set (k1 := fun pos' s' caps' => _).
  assert (Hk1 : forall n rest c, is_Some (k1 n rest c)).
  { intros n rest c. unfold k1.
    destruct (exec_id_tail k n rest (<[1%nat := substring 0 (n - pos) t]> c) Hk)
      as (m & Hm & _).
    change (is_Some (exec (Cat (Group 2 (Star id_char)) (Star Dot)) k n rest
                       (<[1%nat := substring 0 (n - pos) t]> c))).
    by rewrite Hm. }
  pose proof (exec_shapes k1 pos t caps Hk1) as Hs.
  destruct (shape_rest t) as [rest|]; [| done].
  destruct Hs as [n ->]. unfold k1.
  destruct (exec_id_tail k n rest (<[1%nat := substring 0 (n - pos) t]> caps) Hk)
    as (m & Hm & n' & rest' & Hm').
  exists m. split; [exact Hm | eauto].
Qed.


(** The expression is anchored: it matches from index 0 or not at all. *)
Lemma search_anchored s pos : search regex (S pos) s = None.
Proof.
  revert pos. induction s as [|c s IH]; intros pos; [done |].
  cbn [search]. rewrite IH. reflexivity.
Qed.

Lemma String_match_regex url :
  String_match url regex = star Dot (from_shape (whole url)) 0 url ∅.
Proof.
  unfold String_match.
  assert (Hexec : exec (Group 0 regex) accept 0 url ∅
                  = star Dot (from_shape (whole url)) 0 url ∅) by reflexivity.
  destruct url as [|c url]; cbn [search]; rewrite Hexec;
    [| rewrite search_anchored];
    by destruct (star Dot _ _ _ _).
Qed.

Lemma whole_total url n rest c : is_Some (whole url n rest c).
Proof. by eexists. Qed.

(** Whenever the expression matches, group 2 took part. *)
Lemma group_2_defined url m :
  String_match url regex = Some m -> is_Some (m !! 2%nat).
Proof.
  rewrite String_match_regex. intros Hstar.
  apply star_Some in Hstar as (n & rest & Hk).
  pose proof (from_shape_spec (whole url) n rest ∅ (whole_total url)) as Hs.
  destruct (shape_rest rest); [| congruence].
  destruct Hs as (m' & Hm' & n' & rest' & c & Hw).
  assert (m' = m) as -> by congruence.
  unfold whole, accept in Hw. injection Hw as <-.
  rewrite lookup_insert_ne by done. rewrite lookup_insert_eq. by eexists.
Qed.

Lemma String_match_shape (pre t id suffix : string) :
  all Dot pre = true ->
  shape_rest t = Some (id ++ suffix)%string ->
  every_suffix no_shape (tail t) = true ->
  all id_char id = true ->
  delimited suffix = true ->
  exists m, String_match (pre ++ t)%string regex = Some m /\ m !! 2%nat = Some id.
Proof.
  intros Hpre Hshape Hlater Hid Hsuffix.
  rewrite String_match_regex.
  set (url := (pre ++ t)%string).
  pose proof (from_shape_spec (whole url) (0 + String.length pre) t ∅
                (whole_total url)) as Hs.
  rewrite Hshape in Hs. destruct Hs as (m & Hm & n' & rest' & c & Hw).
  exists m. split.
  - apply star_app; [done | done |].
    intros u v Ht Hu.
    pose proof (every_suffix_tail no_shape t u v Hlater Ht Hu) as Hno.
    pose proof (from_shape_spec (whole url)
                  (0 + String.length pre + String.length u) v ∅
                  (whole_total url)) as Hv.
    unfold no_shape in Hno. by destruct (shape_rest v).
  - unfold whole, accept in Hw. injection Hw as <-.
    rewrite lookup_insert_ne by done. rewrite lookup_insert_eq.
    rewrite span_delimited; [done | done |].
    destruct suffix as [|c' suffix]; [done |].
    simpl in Hsuffix. by apply negb_true_iff in Hsuffix.
Qed.

Lemma parseYouTubeId_returns url : exists id, parseYouTubeId url = JS.Normal id.
Proof.
  unfold parseYouTubeId.
  destruct (String_match url regex) as [m|] eqn:Hm; [| eauto].
  destruct (group_2_defined url m Hm) as [id ->].
  destruct (String.length id =? 11)%nat; eauto.
Qed.

(** C2, as the code has it.  Let a URL be [pre ++ marker ++ id ++
    suffix] where [pre] holds no line terminator, [marker] is what the
    alternation of the expression (youtu.be/, v/, u/w/, embed/,
    watch?v=, &v=) matches at that place, none of these shapes starts
    at a later place, [id] has 11 characters none of which is # & or ?,
    and [suffix] is empty or begins with # & or ?.  Then
    [parseYouTubeId] returns exactly [id].  For every input that the
    expression does not match, or whose second group is not exactly 11
    characters long, it returns null, and it raises on no input. *)
Theorem C2_parseYouTubeId_recovers_delimited_id (url : string) :
  (forall pre marker id suffix : string,
     url = (pre ++ marker ++ id ++ suffix)%string ->
     all Dot pre = true ->
     shape_rest (marker ++ id ++ suffix)%string = Some (id ++ suffix)%string ->
     every_suffix no_shape (tail (marker ++ id ++ suffix)%string) = true ->
     String.length id = 11%nat ->
     all id_char id = true ->
     delimited suffix = true ->
     parseYouTubeId url = JS.Normal (Some id)) /\
  (String_match url regex = None -> parseYouTubeId url = JS.Normal None) /\
  (forall m id, String_match url regex = Some m -> m !! 2%nat = Some id ->
     String.length id <> 11%nat -> parseYouTubeId url = JS.Normal None) /\
  (forall e, parseYouTubeId url <> JS.Throw e).
Proof.
  repeat split.
  - intros pre marker id suffix -> Hpre Hshape Hlater Hlen Hid Hsuffix.
    destruct (String_match_shape pre _ id suffix Hpre Hshape Hlater Hid Hsuffix)
      as (m & Hm & Hid2).
    unfold parseYouTubeId. rewrite Hm, Hid2, Hlen. reflexivity.
  - unfold parseYouTubeId. by intros ->.
  - unfold parseYouTubeId. intros m id -> -> Hlen.
    apply Nat.eqb_neq in Hlen. by rewrite Hlen.
  - intros e. by destruct (parseYouTubeId_returns url) as [id ->].
Qed.

Lemma C2_witness :
  parseYouTubeId "https://youtu.be/dQw4w9WgXcQ?t=42" = JS.Normal (Some "dQw4w9WgXcQ").
Proof.
  apply (proj1 (C2_parseYouTubeId_recovers_delimited_id
                  "https://youtu.be/dQw4w9WgXcQ?t=42")
           "https://" "youtu.be/" "dQw4w9WgXcQ" "?t=42");
    vm_compute; reflexivity.
Defined.

(** C2 as the specification words it fails: a URL of the [?v=] shape
    without [watch] in front, and a URL of the [youtu.be/] shape whose
    11-character id is followed by a slash, both yield null. *)
Lemma C2_counterexample :
  String.length "dQw4w9WgXcQ" = 11%nat /\
  parseYouTubeId ("https://www.youtube.com/" ++ "?v=" ++ "dQw4w9WgXcQ")%string
    = JS.Normal None /\
  parseYouTubeId ("https://" ++ "youtu.be/" ++ "dQw4w9WgXcQ" ++ "/")%string
    = JS.Normal None.
Proof. repeat split; vm_compute; reflexivity. Qed.

(** The six shapes on plain URLs. *)
Example parseYouTubeId_shapes :
  parseYouTubeId "https://youtu.be/dQw4w9WgXcQ" = JS.Normal (Some "dQw4w9WgXcQ") /\
  parseYouTubeId "https://www.youtube.com/v/dQw4w9WgXcQ" = JS.Normal (Some "dQw4w9WgXcQ") /\
  parseYouTubeId "https://www.youtube.com/user/x#p/u/1/dQw4w9WgXcQ"
    = JS.Normal (Some "dQw4w9WgXcQ") /\
  parseYouTubeId "https://www.youtube.com/embed/dQw4w9WgXcQ?rel=0"
    = JS.Normal (Some "dQw4w9WgXcQ") /\
  parseYouTubeId "https://www.youtube.com/watch?v=dQw4w9WgXcQ&t=42"
    = JS.Normal (Some "dQw4w9WgXcQ") /\
  parseYouTubeId "https://www.youtube.com/watch?t=42&v=dQw4w9WgXcQ#top"
    = JS.Normal (Some "dQw4w9WgXcQ") /\
  parseYouTubeId "https://vimeo.com/76979871" = JS.Normal None /\
  parseYouTubeId "https://youtu.be/short" = JS.Normal None.
Proof. repeat split; vm_compute; reflexivity. Qed.

End YouTubeIdFacts.

(** ** Numbers and their numerals *)

Module NumberFacts.
Import Number Format.

Lemma floor_nonneg (x : Q) : (0 <= x)%Q -> (0 <= Math.floor x)%Z.
Proof. intros Hx. apply (Qfloor_resp_le 0 x Hx). Qed.

Lemma floor_below (x : Q) (n : Z) : (x < inject_Z n)%Q -> (Math.floor x < n)%Z.
Proof.
  intros Hx. rewrite Zlt_Qlt.
  eapply Qle_lt_trans; [apply Qfloor_le | exact Hx].
Qed.

Lemma floor_spec (x : Q) :
  (inject_Z (Math.floor x) <= x /\ x < inject_Z (Math.floor x) + 1)%Q.
Proof.
  split; [apply Qfloor_le |].
  pose proof (Qlt_floor x) as H. by rewrite inject_Z_plus in H.
Qed.

Lemma digit_is_digit (d : Z) : (0 <= d < 10)%Z -> is_digit (digit d) = true.
Proof.
  intros Hd.
  assert (d = 0 \/ d = 1 \/ d = 2 \/ d = 3 \/ d = 4 \/ d = 5 \/ d = 6
          \/ d = 7 \/ d = 8 \/ d = 9)%Z as Hcases by lia.
  repeat destruct Hcases as [-> | Hcases]; try subst d; reflexivity.
Qed.

Lemma digits_S fuel (n : Z) :
  digits (S fuel) n =
  if (n <? 10)%Z then String (digit n) EmptyString
  else (digits fuel (n / 10) ++ String (digit (n mod 10)) EmptyString)%string.
Proof. reflexivity. Qed.

Lemma toString_nonneg (n : Z) :
  (0 <= n)%Z -> toString n = digits (S (Z.to_nat n)) n.
Proof. intros Hn. unfold toString. by destruct (Z.ltb_spec n 0); [lia |]. Qed.

Lemma toString_one_digit (n : Z) :
  (0 <= n < 10)%Z -> toString n = String (digit n) EmptyString.
Proof.
  intros Hn. rewrite toString_nonneg by lia. rewrite digits_S.
  by destruct (Z.ltb_spec n 10); [| lia].
Qed.

Lemma toString_two_digits (n : Z) :
  (10 <= n < 100)%Z ->
  toString n = String (digit (n / 10)) (String (digit (n mod 10)) EmptyString).
Proof.
  intros Hn. rewrite toString_nonneg by lia.
  destruct (Z.to_nat n) as [|fuel] eqn:Hfuel; [lia |].
  rewrite digits_S. destruct (Z.ltb_spec n 10); [lia |].
  rewrite digits_S. destruct (Z.ltb_spec (n / 10) 10); [done |].
  assert (n / 10 < 10)%Z by (apply Z.div_lt_upper_bound; lia). lia.
Qed.

Lemma length_append (u v : string) :
  String.length (u ++ v)%string = (String.length u + String.length v)%nat.
Proof.
  induction u as [|c u IH]; [done |].
  rewrite RegExpFacts.append_String. simpl. by rewrite IH.
Qed.

Lemma digits_nonempty fuel (n : Z) : (1 <= String.length (digits (S fuel) n))%nat.
Proof.
  rewrite digits_S. destruct (n <? 10)%Z; [simpl; lia |].
  rewrite length_append. simpl. lia.
Qed.

Lemma toString_three_digits (n : Z) :
  (100 <= n)%Z -> (3 <= String.length (toString n))%nat.
Proof.
  intros Hn. rewrite toString_nonneg by lia.
  destruct (Z.to_nat n) as [|[|fuel]] eqn:Hfuel; [lia | lia |].
  rewrite digits_S. destruct (Z.ltb_spec n 10); [lia |].
  rewrite digits_S. destruct (Z.ltb_spec (n / 10) 10) as [Hlt|_].
  - assert (10 <= n / 10)%Z by (apply Z.div_le_lower_bound; lia). lia.
  - rewrite !length_append. pose proof (digits_nonempty fuel (n / 10 / 10)).
    change (String.length (String (digit (n mod 10)) EmptyString)) with 1%nat.
    change (String.length (String (digit (n / 10 mod 10)) EmptyString)) with 1%nat.
    lia.
Qed.

End NumberFacts.

(** ** The time indicator *)

Module TimeIndicatorFacts.
Import Number Format NumberFacts VideoController.

Lemma minutes_bounds (seconds : Q) :
  (0 <= seconds)%Q ->
  let minutes := Math.floor (seconds / 60)%Q in
  (0 <= minutes)%Z /\
  (0 <= seconds - inject_Z minutes * 60 /\ seconds - inject_Z minutes * 60 < 60)%Q.
Proof.
  intros Hs minutes.
  destruct (floor_spec (seconds / 60)%Q) as [Hlo Hhi]. fold minutes in Hlo, Hhi.
  assert (Hdiv : (seconds / 60 * 60 == seconds)%Q) by (field; discriminate).
  split.
  - apply floor_nonneg. apply Qle_shift_div_l; [reflexivity | lra].
  - split; lra.
Qed.

Lemma round_bounds (x : Q) (n : Z) :
  (0 <= x)%Q -> (x < inject_Z n)%Q -> (0 <= Math.round x <= n)%Z.
Proof.
  intros Hlo Hhi. unfold Math.round. split.
  - apply floor_nonneg. lra.
  - assert (Math.floor (x + (1 # 2)) < n + 1)%Z; [| unfold Math.floor in *; lia].
    apply floor_below. rewrite inject_Z_plus.
    change (inject_Z 1) with 1%Q. lra.
Qed.

Lemma zeroPad_one_digit (n : Z) :
  (0 <= n < 10)%Z -> zeroPad n = String "0" (String (digit n) EmptyString).
Proof.
  intros Hn. unfold zeroPad. destruct (Z.ltb_spec n 10); [| lia].
  by rewrite toString_one_digit.
Qed.

Lemma zeroPad_two_digits (n : Z) :
  (10 <= n < 100)%Z ->
  zeroPad n = String (digit (n / 10)) (String (digit (n mod 10)) EmptyString).
Proof.
  intros Hn. unfold zeroPad. destruct (Z.ltb_spec n 10); [lia |].
  by rewrite toString_two_digits.
Qed.

Lemma zeroPad_more_digits (n : Z) :
  (100 <= n)%Z -> (3 <= String.length (zeroPad n))%nat.
Proof.
  intros Hn. unfold zeroPad. destruct (Z.ltb_spec n 10); [lia |].
  rewrite length_append. pose proof (toString_three_digits n Hn). lia.
Qed.

(** A field below 100 is two digits wide. *)
Lemma zeroPad_below_100 (n : Z) :
  (0 <= n < 100)%Z ->
  exists a b, zeroPad n = String a (String b EmptyString) /\
              is_digit a = true /\ is_digit b = true.
Proof.
  intros Hn. destruct (Z_lt_le_dec n 10).
  - exists "0"%char, (digit n). rewrite zeroPad_one_digit by lia.
    split; [done |]. split; [done |]. apply digit_is_digit; lia.
  - exists (digit (n / 10)), (digit (n mod 10)).
    rewrite zeroPad_two_digits by lia. split; [done |].
    split; apply digit_is_digit.
    + split; [apply Z.div_pos; lia | apply Z.div_lt_upper_bound; lia].
    + apply Z.mod_pos_bound; lia.
Qed.

(** C4, as the code has it.  For every seconds >= 0 the formatter
    computes minutes = floor(seconds / 60) and remSeconds =
    round(seconds - minutes * 60), which lies between 0 and 60, and
    returns zeroPad(minutes), a colon, zeroPad(remSeconds), where
    zeroPad puts a 0 in front of a single digit.  The seconds field is
    always two digits wide; the minutes field is at least two digits
    wide, and the whole matches MM:SS exactly when seconds < 6000.
    formatTime(65) is 01:05 and formatTime(5) is 00:05. *)
Theorem C4_generateTimeIndicator_format (seconds : Q) :
  (0 <= seconds)%Q ->
  let minutes := Math.floor (seconds / 60)%Q in
  let remSeconds := Math.round (seconds - inject_Z minutes * 60)%Q in
  generateTimeIndicator seconds = (zeroPad minutes ++ ":" ++ zeroPad remSeconds)%string /\
  (0 <= minutes)%Z /\ (0 <= remSeconds <= 60)%Z /\
  (forall n, (0 <= n < 10)%Z -> zeroPad n = ("0" ++ toString n)%string) /\
  (forall n, (10 <= n)%Z -> zeroPad n = toString n) /\
  (exists a b, zeroPad remSeconds = String a (String b EmptyString) /\
               is_digit a = true /\ is_digit b = true) /\
  ((seconds < 6000)%Q -> is_MMSS (generateTimeIndicator seconds) = true) /\
  ((6000 <= seconds)%Q -> (5 < String.length (generateTimeIndicator seconds))%nat) /\
  generateTimeIndicator 65 = "01:05" /\
  generateTimeIndicator 5 = "00:05".
Proof.
  intros Hs minutes remSeconds.
  destruct (minutes_bounds seconds Hs) as (Hm & Hlo & Hhi).
  fold minutes in Hm, Hlo, Hhi.
  assert (Hr : (0 <= remSeconds <= 60)%Z) by (apply round_bounds; done).
  assert (Hsec : exists a b, zeroPad remSeconds = String a (String b EmptyString) /\
                   is_digit a = true /\ is_digit b = true)
    by (apply zeroPad_below_100; lia).
  split; [reflexivity |]. split; [done |]. split; [done |].
  split; [| split; [| split; [done |]]].
  - intros n Hn. unfold zeroPad. by destruct (Z.ltb_spec n 10); [| lia].
  - intros n Hn. unfold zeroPad. destruct (Z.ltb_spec n 10); [lia |].
    induction (toString n) as [|c t IH]; [done |].
    rewrite RegExpFacts.append_String. by f_equal.
  - split; [| split; [| split; reflexivity]].
    + intros Hlt.
      assert (Hm' : (minutes < 100)%Z).
      { apply floor_below. apply Qlt_shift_div_r; [reflexivity |].
        change (inject_Z 100 * 60)%Q with 6000%Q. exact Hlt. }
      destruct (zeroPad_below_100 minutes) as (a & b & Hab & Ha & Hb); [lia |].
      destruct Hsec as (c & d & Hcd & Hc & Hd).
      change (generateTimeIndicator seconds)
        with (zeroPad minutes ++ ":" ++ zeroPad remSeconds)%string.
      rewrite Hab, Hcd. cbv [append is_MMSS]. by rewrite Ha, Hb, Hc, Hd.
    + intros Hge.
      assert (Hm' : (100 <= minutes)%Z).
      { apply (Qfloor_resp_le 100 (seconds / 60)).
        apply Qle_shift_div_l; [reflexivity |].
        change (100 * 60)%Q with 6000%Q. exact Hge. }
      change (generateTimeIndicator seconds)
        with (zeroPad minutes ++ ":" ++ zeroPad remSeconds)%string.
      rewrite !length_append. pose proof (zeroPad_more_digits minutes Hm').
      destruct Hsec as (c & d & -> & _). simpl. lia.
Qed.

Lemma C4_witness :
  generateTimeIndicator 125 = "02:05" /\ is_MMSS (generateTimeIndicator 125) = true.
Proof.
  destruct (C4_generateTimeIndicator_format 125) as (_ & _ & _ & _ & _ & _ & H & _).
  - discriminate.
  - split; [reflexivity |]. apply H. reflexivity.
Defined.

(** C4 as the specification words it fails: a hundred minutes do not
    fit MM:SS. *)
Lemma C4_counterexample :
  (0 <= 6000)%Q /\
  generateTimeIndicator 6000 = "100:00" /\
  is_MMSS (generateTimeIndicator 6000) = false.
Proof. split; [discriminate |]. split; reflexivity. Qed.

End TimeIndicatorFacts.

(** ** Class lists *)

Module DOMFacts.
Import DOM.

Lemma elem_of_add klass l : klass ∈ add klass l.
Proof. unfold add. apply elem_of_union_l, elem_of_singleton_2. reflexivity. Qed.

Lemma not_elem_of_remove klass l : klass ∉ remove klass l.
Proof.
  unfold remove. intros Hin. apply elem_of_difference in Hin as [_ Hout].
  apply Hout, elem_of_singleton_2. reflexivity.
Qed.

Lemma elem_of_add_ne klass klass' l : klass ≠ klass' -> klass ∈ add klass' l <-> klass ∈ l.
Proof.
  intros Hne. unfold add. rewrite elem_of_union, elem_of_singleton. tauto.
Qed.

Lemma elem_of_remove_ne klass klass' l :
  klass ≠ klass' -> klass ∈ remove klass' l <-> klass ∈ l.
Proof.
  intros Hne. unfold remove. rewrite elem_of_difference, elem_of_singleton. tauto.
Qed.

Lemma remove_add klass l : klass ∉ l -> remove klass (add klass l) = l.
Proof.
  intros Hout. apply set_eq. intros x. unfold add, remove.
  rewrite elem_of_difference, elem_of_union, elem_of_singleton.
  split; [tauto |]. intros Hx. split; [tauto |]. by intros ->.
Qed.

Lemma add_remove klass l : klass ∈ l -> add klass (remove klass l) = l.
Proof.
  intros Hin. apply set_eq. intros x. unfold add, remove.
  rewrite elem_of_union, elem_of_difference, elem_of_singleton.
  split; [intros [-> | [? _]]; done |].
  intros Hx. destruct (decide (x = klass)); tauto.
Qed.

Lemma contains_true klass l : contains klass l = true <-> klass ∈ l.
Proof. unfold contains. apply bool_decide_eq_true. Qed.

Lemma contains_false klass l : contains klass l = false <-> klass ∉ l.
Proof. unfold contains. apply bool_decide_eq_false. Qed.

End DOMFacts.

(** ** Progress and seeking *)

Module ProgressFacts.
Import DOM VideoController.

Lemma lt_true (x y : Q) : Math.lt x y = true <-> (x < y)%Q.
Proof.
  unfold Math.lt. rewrite negb_true_iff, <- not_true_iff_false, Qle_bool_iff.
  split; [apply Qnot_le_lt | apply Qlt_not_le].
Qed.

Lemma lt_false (x y : Q) : Math.lt x y = false <-> (y <= x)%Q.
Proof.
  unfold Math.lt. by rewrite negb_false_iff, Qle_bool_iff.
Qed.

Section Widget.
Context {P : Type} {player : YT.Player P}.
Implicit Types c : Controller P.




End Widget.



End ProgressFacts.

(** ** The buffer bar *)

Module BufferFacts.
Import DOM VideoController.

Import TimeRanges.

Lemma holds_bool time s e :
  Qle_bool s time && Qle_bool time e = true <-> holds time (s, e).
Proof. unfold holds. by rewrite andb_true_iff, !Qle_bool_iff. Qed.

(** The loop stops at the first range that holds the time. *)
Lemma scan_first (rest : TimeRanges.t) range time i r :
  rest !! i = Some r -> holds time r ->
  (forall j r', (j < i)%nat -> rest !! j = Some r' -> ~ holds time r') ->
  scan rest range time = JS.Normal (range + i)%nat.
Proof.
  revert range i. induction rest as [|[s e] rest IH]; intros range i Hi Hr Hfirst.
  - by destruct i.
  - cbn [scan]. destruct i as [|i].
    + injection Hi as <-. apply holds_bool in Hr. rewrite Hr.
      by rewrite Nat.add_0_r.
    + destruct (Qle_bool s time && Qle_bool time e) eqn:Hhead.
      * apply holds_bool in Hhead.
        by destruct (Hfirst 0%nat (s, e) ltac:(lia) eq_refl).
      * rewrite (IH (S range) i Hi Hr).
        -- by rewrite Nat.add_succ_r.
        -- intros j r' Hj Hr'. apply (Hfirst (S j) r'); [lia | done].
Qed.


Section Widget.
Context {P : Type} {player : YT.Player P}.
Implicit Types c : Controller P.


End Widget.


End BufferFacts.

(** ** The toggles *)

Module ToggleFacts.
Import DOM DOMFacts VideoController.

#[global] Instance prompt_player_immediate : YT.Immediate PromptPlayer.t.
Proof. split; intros p; simpl; done. Qed.

Section Widget.
Context {P : Type} {player : YT.Player P} {immediate : YT.Immediate P}.
Implicit Types c : Controller P.

Lemma isPlaying_pause c playing :
  isPlaying c = Some playing -> isPlaying (pause c) = Some false.
Proof.
  unfold isPlaying, pause. simpl.
  destruct (videoElement c) as [v|]; simpl; [done |].
  destruct (youtubePlayer c) as [p|]; simpl; [| done].
  intros _. f_equal. apply Z.eqb_neq, YT.pauseVideo_state.
Qed.

Lemma isPlaying_play c playing :
  isPlaying c = Some playing -> isPlaying (play c) = Some true.
Proof.
  unfold isPlaying, play. simpl.
  destruct (videoElement c) as [v|]; simpl; [done |].
  destruct (youtubePlayer c) as [p|]; simpl; [| done].
  intros _. f_equal. apply Z.eqb_eq, YT.playVideo_state.
Qed.

(** C9, as the code has it.  In a widget with a backend whose playing
    class agrees with what the backend reports (for the vendor
    player: one that has carried out playVideo and pauseVideo when
    the call returns), two play/pause toggles bring the playing
    status, the paused flag of the native element and the playing
    class back to where they were.  In a widget whose mute flag, the
    mute state of its backend and its muted class agree, two mute
    toggles bring all three back to where they were. *)
Theorem C9_toggles_are_involutions c :
  (forall playing,
     isPlaying c = Some playing ->
     contains is_playing (classList (view c)) = playing ->
     let c2 := togglePlayPause (togglePlayPause c) in
     isPlaying c2 = Some playing /\
     HTMLVideoElement.paused <$> videoElement c2
       = HTMLVideoElement.paused <$> videoElement c /\
     classList (view c2) = classList (view c)) /\
  (contains is_muted (classList (view c)) = muted c ->
   (forall video, videoElement c = Some video ->
                  HTMLVideoElement.muted video = muted c) ->
   (forall p, youtubePlayer c = Some p -> YT.isMuted p = muted c) ->
   let c2 := toggleVolume (toggleVolume c) in
   muted c2 = muted c /\
   HTMLVideoElement.muted <$> videoElement c2
     = HTMLVideoElement.muted <$> videoElement c /\
   YT.isMuted <$> youtubePlayer c2 = YT.isMuted <$> youtubePlayer c /\
   classList (view c2) = classList (view c)).
Proof.
  split.
  - intros playing Hplaying Hclass c2.
    assert (Htwice : c2 = if playing then play (pause c) else pause (play c)).
    { subst c2. unfold togglePlayPause at 2. rewrite Hplaying.
      unfold togglePlayPause. destruct playing.
      - by rewrite (isPlaying_pause c true Hplaying).
      - by rewrite (isPlaying_play c false Hplaying). }
    rewrite Htwice. clear Htwice c2. destruct playing.
    + apply contains_true in Hclass.
      split; [apply (isPlaying_play (pause c) false), (isPlaying_pause c true Hplaying) |].
      split.
      * unfold isPlaying in Hplaying. simpl.
        destruct (videoElement c) as [v|]; [| reflexivity].
        injection Hplaying as Hv. apply negb_true_iff in Hv.
        simpl. by rewrite Hv.
      * simpl. by apply add_remove.
    + apply contains_false in Hclass.
      split; [apply (isPlaying_pause (play c) true), (isPlaying_play c false Hplaying) |].
      split.
      * unfold isPlaying in Hplaying. simpl.
        destruct (videoElement c) as [v|]; [| reflexivity].
        injection Hplaying as Hv. apply negb_false_iff in Hv.
        simpl. by rewrite Hv.
      * simpl. by apply remove_add.
  - intros Hclass Hvideo Hplayer c2.
    assert (Htwice : c2 = if muted c then mute (volumeOn c) else volumeOn (mute c)).
    { subst c2. unfold toggleVolume at 2. unfold toggleVolume.
      by destruct (muted c). }
    rewrite Htwice. clear Htwice c2.
    destruct (muted c) eqn:Hmuted.
    + apply contains_true in Hclass. simpl.
      split; [done |]. split; [| split].
      * destruct (videoElement c) as [v|]; simpl; [| done].
        by rewrite (Hvideo v eq_refl).
      * destruct (youtubePlayer c) as [p|]; simpl; [| done].
        by rewrite YT.mute_isMuted, (Hplayer p eq_refl).
      * by apply add_remove.
    + apply contains_false in Hclass. simpl.
      split; [done |]. split; [| split].
      * destruct (videoElement c) as [v|]; simpl; [| done].
        by rewrite (Hvideo v eq_refl).
      * destruct (youtubePlayer c) as [p|]; simpl; [| done].
        by rewrite YT.unMute_isMuted, (Hplayer p eq_refl).
      * by apply remove_add.
Qed.

End Widget.

Lemma C9_witness :
  (let c2 := togglePlayPause (togglePlayPause Samples.embedded) in
   isPlaying c2 = Some false /\
   classList (view c2) = classList (view Samples.embedded)) /\
  (let c2 := toggleVolume (toggleVolume Samples.native) in
   muted c2 = false /\
   HTMLVideoElement.muted <$> videoElement c2 = Some false /\
   classList (view c2) = classList (view Samples.native)).
Proof.
  destruct (C9_toggles_are_involutions Samples.embedded) as [Hplay _].
  destruct (C9_toggles_are_involutions Samples.native) as [_ Hmute].
  split.
  - destruct (Hplay false) as (H1 & _ & H3); [reflexivity | reflexivity |].
    split; [exact H1 | exact H3].
  - destruct Hmute as (H1 & H2 & _ & H4).
    + reflexivity.
    + intros video [= <-]. reflexivity.
    + intros p [=].
    + split; [exact H1 |]. split; [exact H2 | exact H4].
Defined.

(** C9 as the specification words it fails.  A native widget playing at the very
    end of its clip has lost the playing class to the end-of-playback
    render; two toggles leave the class set.  A YouTube widget whose
    player has not been built yet takes the playing class at the first
    toggle and keeps it at the second. *)
Lemma C9_counterexample :
  (isPlaying Samples.at_the_end = Some true /\
   contains is_playing (classList (view Samples.at_the_end)) = false /\
   contains is_playing
     (classList (view (togglePlayPause (togglePlayPause Samples.at_the_end)))) = true) /\
  (contains is_playing (classList (view Samples.waiting)) = false /\
   contains is_playing
     (classList (view (togglePlayPause (togglePlayPause Samples.waiting)))) = true).
Proof. repeat split; vm_compute; reflexivity. Qed.

End ToggleFacts.

(** ** The poll *)

Module PollFacts.
Import DOM VideoController.

Section Widget.
Context {P : Type} {player : YT.Player P}.
Implicit Types (c : Controller P) (w : World P).

(** None of the listeners that work on the controller alone touches
    the timer it remembers. *)
Lemma youTubeTimer_timeUpdate c : youTubeTimer (timeUpdate c) = youTubeTimer c.
Proof.
  unfold timeUpdate.
  destruct (getCurrentTime c), (getDuration c); try done.
  by destruct (Math.lt _ _).
Qed.

Lemma youTubeTimer_togglePlayPause c :
  youTubeTimer (togglePlayPause c) = youTubeTimer c.
Proof. unfold togglePlayPause. by destruct (isPlaying c) as [[]|]. Qed.

Lemma youTubeTimer_toggleVolume c : youTubeTimer (toggleVolume c) = youTubeTimer c.
Proof. unfold toggleVolume. by destruct (muted c). Qed.

Lemma youTubeTimer_onProgressClick x width c :
  youTubeTimer (onProgressClick x width c) = youTubeTimer c.
Proof. unfold onProgressClick. by destruct (getDuration c). Qed.

Lemma youTubeTimer_bufferUpdate c : youTubeTimer (bufferUpdate c) = youTubeTimer c.
Proof.
  unfold bufferUpdate. destruct (videoElement c) as [video|]; [| done].
  cbn [mbind JS.completion_bind].
  destruct (scan _ _ _) as [range|]; [| done]. cbn [mbind JS.completion_bind].
  unfold TimeRanges.start, TimeRanges.end_.
  by destruct (HTMLVideoElement.buffered video !! range) as [[s e]|].
Qed.

Lemma youTubeTimer_onLoadedMetadata c :
  youTubeTimer (onLoadedMetadata c) = youTubeTimer c.
Proof. unfold onLoadedMetadata. by destruct (videoElement c). Qed.

Lemma poll_on_this f w id : poll (on_this f w) id = poll w id.
Proof. reflexivity. Qed.

Lemma tidy_on_this f w :
  (forall c, youTubeTimer (f c) = youTubeTimer c) -> tidy w -> tidy (on_this f w).
Proof.
  intros Hf [Hpoll Hnext]. split; [| exact Hnext].
  intros id Hid. simpl. rewrite Hf. by apply Hpoll.
Qed.

Lemma poll_true w id :
  poll w id = true <->
  exists ms, active (timers w) !! id = Some {| run := TimeUpdate; delay := ms |}.
Proof.
  unfold poll. destruct (active (timers w) !! id) as [[[|n] ms]|]; simpl;
    split; try done; eauto; intros [? [=]].
Qed.

(** After a report of Ended or Paused no poll is left. *)
Lemma cancelled w id :
  tidy w ->
  poll {| this := with_view (with_classList (remove is_playing)) (this w);
          timers := clearInterval (youTubeTimer (this w)) (timers w);
          loader := loader w |} id = false.
Proof.
  intros [Hpoll _]. apply not_true_is_false. intros Hid.
  apply poll_true in Hid as [ms Hid]. simpl in Hid.
  destruct (youTubeTimer (this w)) as [old|] eqn:Hold; simpl in Hid.
  - destruct (decide (old = id)) as [->|Hne].
    + by rewrite lookup_delete_eq in Hid.
    + rewrite lookup_delete_ne in Hid by done.
      assert (Some old = Some id) by (apply Hpoll, poll_true; eauto).
      congruence.
  - assert (@None nat = Some id) by (apply Hpoll, poll_true; eauto).
    congruence.
Qed.

Lemma onStateChange_cancels data w id :
  tidy w -> data = 0%Z \/ data = 2%Z -> poll (onStateChange data w) id = false.
Proof.
  intros Htidy [-> | ->]; unfold onStateChange; cbn [PlayerState_of];
    rewrite poll_on_this; by apply cancelled.
Qed.

(** After a report of Playing the only poll is a new one. *)
Lemma onStateChange_restarts w id :
  tidy w ->
  (poll (onStateChange 1 w) id = true <-> id = next (timers w)) /\
  poll w (next (timers w)) = false /\
  active (timers (onStateChange 1 w)) !! next (timers w)
    = Some {| run := TimeUpdate; delay := 300 |} /\
  youTubeTimer (this (onStateChange 1 w)) = Some (next (timers w)).
Proof.
  intros Htidy. pose proof Htidy as [Hpoll Hnext].
  unfold onStateChange. cbn [PlayerState_of].
  assert (Hold : forall i, i <> next (timers w) ->
            poll {| this := this w;
                    timers := clearInterval (youTubeTimer (this w)) (timers w);
                    loader := loader w |} i = false).
  { intros i _. apply (cancelled w i Htidy). }
  split; [| split; [| split]].
  - rewrite poll_on_this, poll_true. simpl.
    destruct (youTubeTimer (this w)) as [old|] eqn:Hyt; simpl.
    + split.
      * intros [ms Hid]. destruct (decide (next (timers w) = id)) as [|Hne]; [done |].
        rewrite lookup_insert_ne in Hid by done.
        specialize (Hold id ltac:(done)).
        apply not_true_iff_false in Hold. destruct Hold.
        apply poll_true. simpl. eauto.
      * intros ->. rewrite lookup_insert_eq. eauto.
    + split.
      * intros [ms Hid]. destruct (decide (next (timers w) = id)) as [|Hne]; [done |].
        rewrite lookup_insert_ne in Hid by done.
        specialize (Hold id ltac:(done)).
        apply not_true_iff_false in Hold. destruct Hold.
        apply poll_true. simpl. eauto.
      * intros ->. rewrite lookup_insert_eq. eauto.
  - apply not_true_is_false. intros Hid. apply poll_true in Hid as [ms Hid].
    specialize (Hnext (next (timers w)) ltac:(eauto)). lia.
  - simpl. destruct (youTubeTimer (this w)); simpl; by rewrite lookup_insert_eq.
  - simpl. rewrite youTubeTimer_timeUpdate.
    by destruct (youTubeTimer (this w)).
Qed.

(** Any other report leaves the timers alone. *)
Lemma onStateChange_keeps data w :
  data <> 0%Z -> data <> 1%Z -> data <> 2%Z ->
  timers (onStateChange data w) = timers w /\
  youTubeTimer (this (onStateChange data w)) = youTubeTimer (this w).
Proof.
  intros H0 H1 H2. unfold onStateChange.
  destruct (PlayerState_of data) as [[| | | |]|] eqn:Hdata; simpl;
    rewrite ?youTubeTimer_timeUpdate; try done;
    exfalso; unfold PlayerState_of in Hdata;
    destruct data as [|[[[]|[]|]|[[]|[]|]|]|]; try done.
Qed.

Lemma tidy_onStateChange data w : tidy w -> tidy (onStateChange data w).
Proof.
  intros Htidy.
  destruct (decide (data = 0%Z \/ data = 2%Z)) as [Hstop|Hgo].
  - split.
    + intros id Hid. by rewrite (onStateChange_cancels data w id Htidy Hstop) in Hid.
    + destruct Htidy as [_ Hnext]. intros id.
      destruct Hstop as [-> | ->]; unfold onStateChange; cbn [PlayerState_of];
        simpl; destruct (youTubeTimer (this w)) as [old|]; simpl;
        rewrite ?lookup_delete_is_Some; intros; apply Hnext; tauto.
  - destruct (decide (data = 1%Z)) as [->|Hne].
    + destruct (onStateChange_restarts w 0%nat Htidy) as (_ & _ & _ & Hyt).
      split.
      * intros id Hid.
        apply (onStateChange_restarts w id Htidy) in Hid. by subst.
      * destruct Htidy as [_ Hnext]. intros id.
        unfold onStateChange. cbn [PlayerState_of]. simpl.
        destruct (youTubeTimer (this w)) as [old|]; simpl;
          rewrite lookup_insert_is_Some, ?lookup_delete_is_Some;
          intros [-> | [_ Hin]]; try lia;
          (assert (id < next (timers w))%nat by (apply Hnext; tauto); lia).
    + destruct (onStateChange_keeps data w) as [Htimers Hyt]; [tauto | done | tauto |].
      destruct Htidy as [Hpoll Hnext]. split.
      * intros id. unfold poll. rewrite Htimers, Hyt. apply Hpoll.
      * intros id. rewrite Htimers. apply Hnext.
Qed.

Lemma tidy_handle e w : tidy w -> tidy (handle e w).
Proof.
  intros Htidy. destruct e; cbn [handle].
  - by apply tidy_onStateChange.
  - destruct (run <$> active (timers w) !! id) as [[|n]|]; [| done | done].
    apply tidy_on_this; [apply youTubeTimer_timeUpdate | done].
  - apply tidy_on_this; [apply youTubeTimer_togglePlayPause | done].
  - apply tidy_on_this; [apply youTubeTimer_toggleVolume | done].
  - apply tidy_on_this; [apply youTubeTimer_onProgressClick | done].
  - apply tidy_on_this; [apply youTubeTimer_bufferUpdate | done].
  - apply tidy_on_this; [apply youTubeTimer_timeUpdate | done].
  - apply tidy_on_this; [apply youTubeTimer_onLoadedMetadata | done].
  - by apply tidy_on_this.
  - by apply tidy_on_this.
  - destruct Htidy as [Hpoll Hnext]. split.
    + intros id Hid. apply Hpoll. apply poll_true in Hid as [ms' Hid].
      simpl in Hid. destruct (decide (next (timers w) = id)) as [<-|Hne].
      * by rewrite lookup_insert_eq in Hid.
      * rewrite lookup_insert_ne in Hid by done. apply poll_true. eauto.
    + intros id. simpl. rewrite lookup_insert_is_Some.
      intros [<- | [_ Hin]]; [lia |]. specialize (Hnext id Hin). lia.
  - by apply tidy_on_this.
Qed.

Lemma tidy_handle_all events w : tidy w -> tidy (handle_all events w).
Proof.
  revert w. induction events as [|e events IH]; intros w Htidy; [done |].
  apply IH, tidy_handle, Htidy.
Qed.

Lemma clean_tidy w : clean w = true -> tidy w.
Proof.
  unfold clean. destruct (youTubeTimer (this w)) eqn:Hyt; [done |].
  rewrite forallb_forall. intros Hall. split.
  - intros id Hid. apply poll_true in Hid as [ms Hid].
    apply elem_of_map_to_list, list_elem_of_In, Hall in Hid.
    simpl in Hid. by apply andb_true_iff in Hid as [_ ?].
  - intros id [iv Hid].
    apply elem_of_map_to_list, list_elem_of_In, Hall in Hid.
    simpl in Hid. apply andb_true_iff in Hid as [Hlt _].
    by apply Nat.ltb_lt in Hlt.
Qed.

(** C3, as the code has it.  In every state a widget reaches from a
    page in which it has no timer yet, at most one of its 300 ms
    polls is running.  A report of Ended or Paused cancels the poll.
    A report of Playing cancels any poll there is and starts one new
    poll, with a delay of 300 ms, which is then the only one.  Any
    other report (Buffering and Cued among them) leaves the timers as
    they are.  Teardown calls pause() and does not touch the timers;
    the report of Paused that answers it cancels the poll. *)
Theorem C3_at_most_one_poll w0 (events : list (event P)) :
  clean w0 = true ->
  let w := handle_all events w0 in
  (forall i j, poll w i = true -> poll w j = true -> i = j) /\
  (forall i, poll (onStateChange (PlayerState_value ENDED) w) i = false) /\
  (forall i, poll (onStateChange (PlayerState_value PAUSED) w) i = false) /\
  (forall i, poll (onStateChange (PlayerState_value PLAYING) w) i = true
             <-> i = next (timers w)) /\
  poll w (next (timers w)) = false /\
  active (timers (onStateChange (PlayerState_value PLAYING) w)) !! next (timers w)
    = Some {| run := TimeUpdate; delay := 300 |} /\
  (forall data,
     data <> PlayerState_value ENDED -> data <> PlayerState_value PLAYING ->
     data <> PlayerState_value PAUSED ->
     timers (onStateChange data w) = timers w) /\
  timers (handle Destroy w) = timers w /\
  (forall i, poll (onStateChange (PlayerState_value PAUSED) (handle Destroy w)) i = false).
Proof.
  intros Hclean w.
  assert (Htidy : tidy w) by (apply tidy_handle_all, clean_tidy, Hclean).
  split; [| split; [| split; [| split; [| split; [| split; [| split; [| split]]]]]]].
  - intros i j Hi Hj. destruct Htidy as [Hpoll _].
    apply Hpoll in Hi, Hj. congruence.
  - intros i. apply onStateChange_cancels; [done | by left].
  - intros i. apply onStateChange_cancels; [done | by right].
  - intros i. apply (onStateChange_restarts w i Htidy).
  - apply (onStateChange_restarts w 0%nat Htidy).
  - apply (onStateChange_restarts w 0%nat Htidy).
  - intros data H0 H1 H2. by apply onStateChange_keeps.
  - reflexivity.
  - intros i. apply onStateChange_cancels; [| by right].
    by apply (tidy_handle Destroy).
Qed.

End Widget.

Lemma C3_witness :
  let w := handle_all [StateChange 1; Tick 1; StateChange 3] Samples.page in
  poll (onStateChange 2 w) 1 = false /\
  (poll (onStateChange 1 w) 2 = true <-> 2%nat = next (timers w)).
Proof.
  destruct (C3_at_most_one_poll Samples.page [StateChange 1; Tick 1; StateChange 3])
    as (_ & _ & Hpaused & Hplaying & _); [reflexivity |].
  split; [apply Hpaused | apply Hplaying].
Defined.

(** C3 as the specification words it fails.  With the poll running, a report of
    Buffering is a transition away from Playing that leaves the poll
    running, and so does teardown. *)
Lemma C3_counterexample :
  poll (handle_all [StateChange (PlayerState_value PLAYING)] Samples.page) 1 = true /\
  poll (handle_all [StateChange (PlayerState_value PLAYING);
                    StateChange (PlayerState_value BUFFERING)] Samples.page) 1 = true /\
  poll (handle_all [StateChange (PlayerState_value PLAYING); Destroy] Samples.page) 1 = true.
Proof. repeat split; vm_compute; reflexivity. Qed.

End PollFacts.

(** ** Construction *)

Module ConstructionFacts.
Import DOM VideoController.

Section Widget.
Context {P : Type} {player : YT.Player P}.
Implicit Types (c : Controller P) (w : World P).

(** With the API captured and a wrapper in the markup the player is
    built; the loader and the markup stay as they were. *)
Lemma initYouTubePlayer_captured url w api :
  YouTubeService._API (YouTubeService.service (loader w)) = Some api ->
  found ".video__wrapper" (element (this w)) = true ->
  exists w', initYouTubePlayer url w = JS.Normal w' /\
             loader w' = loader w /\ element (this w') = element (this w).
Proof.
  intros Hapi Hwrapper. unfold initYouTubePlayer, YouTubeService.get_API.
  rewrite Hapi, Hwrapper, Hapi.
  destruct (YouTubeIdFacts.parseYouTubeId_returns url) as [id ->].
  cbn [mbind JS.completion_bind]. eauto.
Qed.

Lemma run_callbacks_captured cbs w api :
  YouTubeService._API (YouTubeService.service (loader w)) = Some api ->
  found ".video__wrapper" (element (this w)) = true ->
  exists w', run_callbacks cbs w = JS.Normal w'.
Proof.
  revert w. induction cbs as [|cb cbs IH]; intros w Hapi Hwrapper; [by eexists |].
  cbn [run_callbacks]. destruct cb as [url|n]; cbn [run_callback].
  - destruct (initYouTubePlayer_captured url w api Hapi Hwrapper)
      as (w' & -> & Hloader & Helement).
    cbn [mbind JS.completion_bind]. apply IH; congruence.
  - cbn [mbind JS.completion_bind]. by apply IH.
Qed.

(** While the API is not there, registering calls nothing. *)
Lemma called_pending (service : YouTubeService.State YT.Api Callback) cb :
  YouTubeService._API (YouTubeService.service service) = None ->
  called service (YouTubeService.loadAPI (Some cb) service) = [].
Proof.
  intros Hapi. unfold called, YouTubeService.loadAPI. simpl. rewrite Hapi.
  unfold YouTubeService._loadAPI. simpl.
  destruct (YouTubeService._isLoadingAPI _); simpl; apply drop_all.
Qed.

Lemma loadAPI_captured (service : YouTubeService.State YT.Api Callback) cb api :
  YouTubeService._API (YouTubeService.service service) = Some api ->
  YouTubeService._API
    (YouTubeService.service (YouTubeService.loadAPI (Some cb) service)) = Some api.
Proof.
  intros Hapi. unfold YouTubeService.loadAPI. simpl. rewrite Hapi.
  unfold YouTubeService._resolveCallbacks.
  rewrite YouTubeServiceFacts.fold_call. simpl. done.
Qed.

Lemma complete_found element :
  complete element = true ->
  found ".video__play_pause" element
  && found ".video__volume" element
  && found ".video__fullscreen" element
  && found ".video__progress" element = true /\
  found ".video__wrapper" element = true.
Proof. unfold complete. by rewrite andb_true_iff. Qed.

(** The YouTube branch of the constructor does not raise. *)
Lemma youtube_branch c page_timers service external :
  found ".video__wrapper" (element c) = true ->
  exists w,
    run_callbacks
      (called service (YouTubeService.loadAPI (Some (InitYouTubePlayer external)) service))
      {| this := c; timers := page_timers;
         loader := YouTubeService.loadAPI (Some (InitYouTubePlayer external)) service |}
    = JS.Normal w.
Proof.
  intros Hwrapper.
  destruct (YouTubeService._API (YouTubeService.service service)) as [api|] eqn:Hapi.
  - apply (run_callbacks_captured _ _ api); [| done]. simpl. by apply loadAPI_captured.
  - rewrite called_pending by done. by eexists.
Qed.

(** Without one of the four controls nothing else is looked at. *)
Lemma missing_control element page_timers service :
  found ".video__play_pause" element
  && found ".video__volume" element
  && found ".video__fullscreen" element
  && found ".video__progress" element = false ->
  constructor element page_timers service = JS.Throw JS.TypeError.
Proof. intros Hmissing. unfold constructor, initControls. by rewrite Hmissing. Qed.

Lemma modal_step w :
  JS.raises (if in_modal (this w) then JS.Normal (on_this play w) else JS.Normal w)
  = false.
Proof. by destruct (in_modal (this w)). Qed.

(** C8, as the code has it.  On a container in which the controls
    and the wrapper of the player template are found, construction
    raises exactly when either the external marker is there, not
    empty, and does not match the YouTube pattern (the error says the
    third-party video is not supported), or the marker is absent or
    empty and there is no native video element (the error says no
    video element was found).  A container with a non-empty marker
    that matches the pattern, or with no marker or an empty one and
    at least one video element, constructs without raising. *)
Theorem C8_constructor_raises_exactly element page_timers
    (service : YouTubeService.State YT.Api Callback) :
  complete element = true ->
  let result := constructor element page_timers service in
  (JS.raises result = true <->
     (exists external, JS.truthy (data_external element) = Some external /\
                       RegExp.String_match external youtu = None)
     \/ (JS.truthy (data_external element) = None /\ videos element = [])) /\
  (forall external,
     JS.truthy (data_external element) = Some external ->
     RegExp.String_match external youtu = None ->
     result = JS.Throw (JS.Error "Unsupportet third partie video")) /\
  (JS.truthy (data_external element) = None -> videos element = [] ->
   result = JS.Throw (JS.Error "No video element found!")) /\
  (forall external,
     JS.truthy (data_external element) = Some external ->
     is_Some (RegExp.String_match external youtu) ->
     JS.raises result = false) /\
  (JS.truthy (data_external element) = None -> videos element <> [] ->
   JS.raises result = false).
Proof.
  intros Hcomplete result. subst result.
  destruct (complete_found element Hcomplete) as [Hcontrols Hwrapper].
  unfold constructor, initControls. rewrite Hcontrols.
  cbn [mbind JS.completion_bind].
  destruct (JS.truthy (data_external element)) as [external|] eqn:Hmarker.
  - destruct (RegExp.String_match external youtu) as [m|] eqn:Hmatch.
    + match goal with
      | |- context [run_callbacks ?cbs ?w] =>
          destruct (youtube_branch (this w) page_timers service external Hwrapper)
            as [w' Hw']
      end.
      simpl in Hw'. rewrite Hw'.
      cbn [mbind JS.completion_bind]. rewrite modal_step.
      split; [| split; [| split; [| split]]]; try done.
      * split; [done |]. intros [(external' & [= <-] & Hnone) | [? _]]; congruence.
      * intros external' [= <-]. congruence.
    + cbn [mbind JS.completion_bind JS.raises].
      split; [| split; [| split; [| split]]]; try done.
      * split; [| done]. intros _. left. eauto.
      * intros external' [= <-] [m Hm]. congruence.
  - unfold initVideoPlayer. simpl.
    destruct (videos element) as [|video rest] eqn:Hvideos.
    + cbn [mbind JS.completion_bind JS.raises].
      split; [| split; [| split; [| split]]]; try done.
      split; [| done]. intros _. by right.
    + cbn [mbind JS.completion_bind]. rewrite modal_step.
      split; [| split; [| split; [| split]]]; try done.
      split; [done |]. intros [(external' & [=] & _) | [_ [=]]].
Qed.

End Widget.

Lemma C8_witness :
  JS.raises (constructor (P:=PromptPlayer.t) Samples.external_markup
               Samples.no_timers YouTubeService.fresh) = false /\
  constructor (P:=PromptPlayer.t) Samples.other_provider
    Samples.no_timers YouTubeService.fresh
  = JS.Throw (JS.Error "Unsupportet third partie video").
Proof.
  split.
  - destruct (C8_constructor_raises_exactly (P:=PromptPlayer.t) Samples.external_markup
                Samples.no_timers YouTubeService.fresh) as (_ & _ & _ & Hok & _);
      [reflexivity |].
    apply (Hok "https://youtu.be/dQw4w9WgXcQ"); [reflexivity |].
    vm_compute. by eexists.
  - destruct (C8_constructor_raises_exactly (P:=PromptPlayer.t) Samples.other_provider
                Samples.no_timers YouTubeService.fresh) as (_ & Hraise & _);
      [reflexivity |].
    apply (Hraise "https://vimeo.com/76979871"); reflexivity.
Defined.

(** C8 as the specification words it fails.  A container with a video child and a
    marker that names another provider raises, although it has a video
    child; a container with a video child and an empty marker
    constructs, although its marker does not name YouTube; a container
    whose marker names YouTube raises when its play button is not
    there. *)
Lemma C8_counterexample :
  (videos Samples.other_provider <> [] /\
   JS.raises (constructor (P:=PromptPlayer.t) Samples.other_provider
                Samples.no_timers YouTubeService.fresh) = true) /\
  (data_external Samples.empty_marker = Some "" /\
   RegExp.String_match "" youtu = None /\
   JS.raises (constructor (P:=PromptPlayer.t) Samples.empty_marker
                Samples.no_timers YouTubeService.fresh) = false) /\
  (data_external Samples.no_play_button = Some "https://youtu.be/dQw4w9WgXcQ" /\
   RegExp.String_match "https://youtu.be/dQw4w9WgXcQ" youtu <> None /\
   constructor (P:=PromptPlayer.t) Samples.no_play_button
     Samples.no_timers YouTubeService.fresh = JS.Throw JS.TypeError).
Proof. repeat split; try discriminate; vm_compute; done. Qed.

(** The widget on the YouTube container is constructed without a
    player; the player is built, with the id of the marker, when the
    vendor script reports in. *)
Example deferred_construction :
  exists w w',
    constructor (P:=PromptPlayer.t) Samples.external_markup
      Samples.no_timers YouTubeService.fresh = JS.Normal w /\
    youtubePlayer (this w) = None /\
    YouTubeService.scripts (YouTubeService.window (loader w))
      = [YouTubeService.iframe_api] /\
    onYouTubeIframeAPIReady w = Some (JS.Normal w') /\
    PromptPlayer.videoId <$> youtubePlayer (this w') = Some (Some "dQw4w9WgXcQ").
Proof. do 2 eexists. repeat split; vm_compute; reflexivity. Qed.

End ConstructionFacts.

(** * Further properties *)

(** ** The loader in use *)

Module YouTubeServiceRunFacts.
Import YouTubeService YouTubeServiceRun YouTubeServiceFacts.

Section Facts.
Context {Api Cb : Type}.
Implicit Types (s : State Api Cb) (ops : list (op Api Cb)) (cb : Cb).

Lemma settled_step s o : settled s -> settled (step s o).
Proof.
  destruct s as [[loading api queue] [yt hook tags inv]].
  unfold settled. simpl.
  destruct tags as [|tag [|tag' tags]]; [| | done].
  - intros (-> & -> & ->). destruct o as [[cb|]| |api']; simpl; auto 10.
  - intros (-> & -> & [[-> ->] | (-> & [api' ->] & ->)]);
      destruct o as [[cb|]| |api'']; simpl;
      unfold _resolveCallbacks; rewrite ?fold_call; simpl; eauto 10.
Qed.

Lemma settled_run ops s : settled s -> settled (run ops s).
Proof.
  revert s. induction ops as [|o ops IH]; intros s Hs; [done |].
  apply IH, settled_step, Hs.
Qed.

Lemma settled_fresh : settled (fresh (Api:=Api) (Cb:=Cb)).
Proof. by repeat split. Qed.



(** X1. Whatever the page does with the loader, in whatever order
    (registering with or without a callback, reading [API], the
    vendor script reporting in, any number of times), at most one
    script tag is ever injected, and there is one exactly when the
    hook is installed. *)
Theorem X1_one_script_tag_per_page ops :
  let s := run ops fresh in
  (List.length (scripts (window s)) <= 1)%nat /\
  (scripts (window s) = [iframe_api] <-> onYouTubeIframeAPIReady (window s) = true) /\
  (scripts (window s) = [] <-> onYouTubeIframeAPIReady (window s) = false).
Proof.
  intros s. pose proof (settled_run ops fresh settled_fresh) as Hs.
  fold s in Hs. unfold settled in Hs.
  destruct (scripts (window s)) as [|tag [|tag' tags]]; [| | done].
  - destruct Hs as (_ & _ & ->). simpl. split; [lia |]. by split.
  - destruct Hs as (-> & -> & _). simpl. split; [lia |]. by split.
Qed.



End Facts.



End YouTubeServiceRunFacts.

(** ** What the two expressions accept *)

Module MatchFacts.
Import RegExp RegExpFacts YouTubeId YouTubeIdFacts.

Lemma strip_lits (t s rest : string) :
  strip (lits t) s = Some rest <-> s = (t ++ rest)%string.
Proof.
  revert s. induction t as [|c t IH]; intros s; push_append.
  - simpl. split; congruence.
  - change (lits (String c t)) with (Lit c :: lits t).
    destruct s as [|c' s]; simpl; [split; congruence |].
    destruct (Ascii.eqb_spec c' c) as [->|Hne].
    + rewrite IH. split; congruence.
    + split; congruence.
Qed.

Lemma strip_split pattern (s rest : string) :
  strip pattern s = Some rest ->
  exists front : string, s = (front ++ rest)%string.
Proof.
  revert s. induction pattern as [|a pattern IH]; intros s; simpl.
  - intros [= ->]. by exists EmptyString.
  - destruct s as [|c s]; [done |]. destruct (atom_matches a c); [| done].
    intros Hrest. destruct (IH s Hrest) as [front ->]. by exists (String c front).
Qed.

Lemma search_text (t s : string) pos :
  is_Some (search (text t) pos s) <->
  exists pre post : string, s = (pre ++ t ++ post)%string.
Proof.
  revert pos. induction s as [|c s IH]; intros pos; cbn [search exec];
    unfold text; rewrite exec_seq.
  - destruct (strip (lits t) EmptyString) as [rest|] eqn:Hstrip.
    + apply strip_lits in Hstrip. split; [| by eexists].
      intros _. exists EmptyString, rest. by push_append.
    + split; [by intros [? [=]] |]. intros (pre & post & Hs).
      destruct pre as [|c pre]; push_append; [| done].
      apply strip_lits in Hs. congruence.
  - destruct (strip (lits t) (String c s)) as [rest|] eqn:Hstrip.
    + apply strip_lits in Hstrip. split; [| by eexists].
      intros _. exists EmptyString, rest. by push_append.
    + fold (text t). rewrite IH. split.
      * intros (pre & post & ->). by exists (String c pre), post.
      * intros (pre & post & Hs). destruct pre as [|c' pre]; push_append.
        -- apply strip_lits in Hs. congruence.
        -- injection Hs as -> ->. eauto.
Qed.

(** X4. The provider test of the constructor, [external.match(/youtu/)],
    succeeds exactly on the marker values that contain the five letters
    youtu somewhere: nothing checks that the value is a URL, or a
    YouTube one. *)
Theorem X4_youtu_is_containment (external : string) :
  is_Some (String_match external VideoController.youtu) <->
  exists pre post : string, external = (pre ++ "youtu" ++ post)%string.
Proof. apply search_text. Qed.

Lemma star_Some_split a (k : cont) pos s caps m :
  star a k pos s caps = Some m ->
  exists u v : string,
    s = (u ++ v)%string /\ all a u = true /\
    k (pos + String.length u)%nat v caps = Some m.
Proof.
  revert pos. induction s as [|c s IH]; intros pos; simpl.
  - intros Hk. exists EmptyString, EmptyString. by rewrite Nat.add_0_r.
  - destruct (atom_matches a c) eqn:Hc.
    + destruct (star a k (S pos) s caps) as [m'|] eqn:Hstar.
      * intros [= <-]. destruct (IH (S pos) Hstar) as (u & v & -> & Hu & Hk).
        exists (String c u), v. push_append. simpl. rewrite Hc, Hu.
        by rewrite Nat.add_succ_r.
      * intros Hk. exists EmptyString, (String c s). by rewrite Nat.add_0_r.
    + intros Hk. exists EmptyString, (String c s). by rewrite Nat.add_0_r.
Qed.

Lemma shape_rest_split (t rest : string) :
  shape_rest t = Some rest -> exists marker : string, t = (marker ++ rest)%string.
Proof.
  unfold shape_rest. cbn [foldr].
  repeat match goal with
  | |- context [strip ?p t] =>
      destruct (strip p t) as [r|] eqn:?;
      [ intros [= <-]; eapply strip_split; eassumption | ]
  end.
  done.
Qed.

Lemma span_all a s : all a (span a s).1 = true.
Proof.
  induction s as [|c s IH]; simpl; [done |].
  destruct (atom_matches a c) eqn:Hc; simpl; [by rewrite Hc | done].
Qed.

Lemma span_stops a s :
  match (span a s).2 with
  | String c _ => atom_matches a c = false
  | EmptyString => True
  end.
Proof.
  induction s as [|c s IH]; simpl; [done |].
  destruct (atom_matches a c) eqn:Hc; simpl; done.
Qed.

(** X5. Whenever [parseYouTubeId] returns an id, the URL reads
    pre, marker, id, post, where pre holds no line terminator, marker is
    what the alternation matches at that place, the id has exactly 11
    characters, none of them # & or ?, and post is empty or begins with
    # & or ?: the id is a piece of the URL itself, taken as far as it
    goes. *)
Theorem X5_parseYouTubeId_returns_a_piece (url id : string) :
  parseYouTubeId url = JS.Normal (Some id) ->
  String.length id = 11%nat /\
  all id_char id = true /\
  exists pre marker post : string,
    url = (pre ++ marker ++ id ++ post)%string /\
    all Dot pre = true /\
    shape_rest (marker ++ id ++ post)%string = Some (id ++ post)%string /\
    delimited post = true.
Proof.
  unfold parseYouTubeId.
  destruct (String_match url regex) as [m|] eqn:Hm; [| done].
  destruct (m !! 2%nat) as [g|] eqn:Hg; [| done].
  destruct (Nat.eqb_spec (String.length g) 11) as [Hlen|]; [| done].
  intros [= ->]. split; [done |].
  rewrite String_match_regex in Hm.
  apply star_Some_split in Hm as (pre & v & -> & Hpre & Hk).
  pose proof (from_shape_spec (whole (pre ++ v)%string) (0 + String.length pre) v ∅
                (whole_total _)) as Hs.
  destruct (shape_rest v) as [rest|] eqn:Hrest; [| congruence].
  destruct Hs as (m' & Hm' & n' & rest' & c & Hw).
  assert (m' = m) as -> by congruence.
  unfold whole, accept in Hw. injection Hw as <-.
  rewrite lookup_insert_ne in Hg by done. rewrite lookup_insert_eq in Hg.
  injection Hg as <-.
  destruct (shape_rest_split v rest Hrest) as [marker ->].
  split; [apply span_all |].
  exists pre, marker, (span id_char rest).2.
  rewrite (span_append id_char rest).
  split; [done |]. split; [done |]. split; [done |].
  unfold delimited. pose proof (span_stops id_char rest) as Hstop.
  destruct (span id_char rest).2; [done |]. by rewrite Hstop.
Qed.

Lemma X5_witness :
  exists pre marker post : string,
    "https://www.youtube.com/watch?v=dQw4w9WgXcQ&t=42"
    = (pre ++ marker ++ "dQw4w9WgXcQ" ++ post)%string /\
    delimited post = true.
Proof.
  destruct (X5_parseYouTubeId_returns_a_piece
              "https://www.youtube.com/watch?v=dQw4w9WgXcQ&t=42" "dQw4w9WgXcQ")
    as (_ & _ & pre & marker & post & Hurl & _ & _ & Hpost).
  - vm_compute. reflexivity.
  - exists pre, marker, post. split; [exact Hurl | exact Hpost].
Defined.

End MatchFacts.

(** ** Looking up the ancestors *)

Module AncestorFacts.
Import DOM DOMFacts.

(** X6. [firstParentByClass] returns a node exactly when the chain that
    starts at the element and goes up through its parents reads: nodes
    that are not the body and do not carry the class, then the node
    returned, which carries the class and is not the body, then at
    least one more node.  So it finds the nearest carrier of the class,
    the element itself included, but never looks past the body and
    never returns the top of the chain. *)
Theorem X6_firstParentByClass_nearest element parents klass found :
  firstParentByClass element parents klass = Some found <->
  exists below above,
    element :: parents = below ++ found :: above /\
    above <> [] /\
    contains klass (classes found) = true /\
    is_body found = false /\
    Forall (fun node => is_body node = false
                        /\ contains klass (classes node) = false) below.
Proof.
  revert element. induction parents as [|parent rest IH]; intros element.
  - simpl. split; [done |]. intros (below & above & Hchain & Habove & _).
    destruct below as [|b [|b' below]]; simplify_eq/=.
  - cbn [firstParentByClass].
    destruct (is_body element) eqn:Hbody.
    + split; [done |]. intros (below & above & Hchain & _ & _ & Hfound & Hbelow).
      destruct below as [|b below]; simplify_eq/=; [congruence |].
      apply Forall_cons_1 in Hbelow as [[? _] _]. congruence.
    + destruct (contains klass (classes element)) eqn:Hclass.
      * split.
        -- intros [= <-]. exists [], (parent :: rest). by repeat split.
        -- intros (below & above & Hchain & _ & _ & _ & Hbelow).
           destruct below as [|b below]; simplify_eq/=; [done |].
           apply Forall_cons_1 in Hbelow as [[_ ?] _]. congruence.
      * rewrite IH. split.
        -- intros (below & above & Hchain & Habove & Hk & Hb & Hbelow).
           exists (element :: below), above. rewrite Hchain.
           repeat split; try done. by apply Forall_cons.
        -- intros (below & above & Hchain & Habove & Hk & Hb & Hbelow).
           destruct below as [|b below]; simplify_eq/=; [congruence |].
           apply Forall_cons_1 in Hbelow as [_ Hbelow].
           exists below, above. by repeat split.
Qed.

End AncestorFacts.

(** ** Rendering *)

Module RenderFacts.
Import DOM DOMFacts VideoController ProgressFacts.

Lemma remove_remove klass l : remove klass (remove klass l) = remove klass l.
Proof.
  apply set_eq. intros x. unfold remove.
  rewrite !elem_of_difference. tauto.
Qed.

Lemma add_add klass l : add klass (add klass l) = add klass l.
Proof.
  apply set_eq. intros x. unfold add. rewrite !elem_of_union. tauto.
Qed.

Section Widget.
Context {P : Type} {player : YT.Player P}.
Implicit Types (c : Controller P) (w : World P).

Lemma getCurrentTime_timeUpdate c : getCurrentTime (timeUpdate c) = getCurrentTime c.
Proof.
  unfold timeUpdate. destruct (getCurrentTime c) eqn:Hnow, (getDuration c) eqn:Hlen;
    try destruct (Math.lt _ _); done.
Qed.

Lemma getDuration_timeUpdate c : getDuration (timeUpdate c) = getDuration c.
Proof.
  unfold timeUpdate. destruct (getCurrentTime c) eqn:Hnow, (getDuration c) eqn:Hlen;
    try destruct (Math.lt _ _); done.
Qed.

(** X7. A time-update render is idempotent: rendering again, with the
    backend where it was, changes nothing. *)
Theorem X7_timeUpdate_idempotent c : timeUpdate (timeUpdate c) = timeUpdate c.
Proof.
  unfold timeUpdate at 1.
  rewrite getCurrentTime_timeUpdate, getDuration_timeUpdate.
  unfold timeUpdate.
  destruct (getCurrentTime c) as [now|], (getDuration c) as [len|];
    try destruct (Math.lt _ _);
    destruct c as [el [cl tcl tt lt pw bw bl] srcs ve yp yt m];
    unfold with_view, with_progress, with_classList,
      with_currentTimeElement_classList; simpl;
    rewrite ?remove_remove, ?add_add; reflexivity.
Qed.



End Widget.


End RenderFacts.

(** ** Bounds *)

Module BoundFacts.
Import DOM VideoController NumberFacts TimeIndicatorFacts.

Lemma floor_unique (x : Q) (z : Z) :
  (inject_Z z <= x)%Q -> (x < inject_Z z + 1)%Q -> Math.floor x = z.
Proof.
  intros Hlo Hhi. destruct (floor_spec x) as [Hlo' Hhi'].
  assert (Math.floor x < z + 1)%Z.
  { apply floor_below. rewrite inject_Z_plus. exact Hhi. }
  assert (z < Math.floor x + 1)%Z.
  { rewrite Zlt_Qlt, inject_Z_plus. change (inject_Z 1) with 1%Q. lra. }
  lia.
Qed.

Lemma round_unique (x : Q) (z : Z) :
  (inject_Z z - (1 # 2) <= x)%Q -> (x < inject_Z z + (1 # 2))%Q -> Math.round x = z.
Proof.
  intros Hlo Hhi. unfold Math.round. apply (floor_unique (x + (1 # 2)) z); lra.
Qed.

Lemma round_le (x y : Q) : (x <= y)%Q -> (Math.round x <= Math.round y)%Z.
Proof. intros Hxy. unfold Math.round. apply Qfloor_resp_le. lra. Qed.

Lemma round_inject_Z (z : Z) : Math.round (inject_Z z) = z.
Proof. apply round_unique; lra. Qed.

(** The fraction of the track a click stands for. *)
Lemma fraction_bounds (layerX clientWidth : Z) :
  (0 < clientWidth)%Z -> (0 <= layerX <= clientWidth)%Z ->
  (0 <= inject_Z layerX / inject_Z clientWidth
   /\ inject_Z layerX / inject_Z clientWidth <= 1)%Q.
Proof.
  intros Hw [Hlo Hhi].
  assert (0 < inject_Z clientWidth)%Q by (change 0%Q with (inject_Z 0); by rewrite <- Zlt_Qlt).
  assert (0 <= inject_Z layerX)%Q by (change 0%Q with (inject_Z 0); by rewrite <- Zle_Qle).
  assert (inject_Z layerX <= inject_Z clientWidth)%Q by (by rewrite <- Zle_Qle).
  split.
  - apply Qle_shift_div_l; [done | lra].
  - apply Qle_shift_div_r; [done | lra].
Qed.

Section Widget.
Context {P : Type} {player : YT.Player P}.
Implicit Types c : Controller P.

(** X9. A click inside the progress track (offset between 0 and the
    width of the track) on a clip of duration >= 0 seeks the native
    element to a whole second between 0 and round(duration), and a
    click further right never seeks further left. *)
Theorem X9_click_inside_seeks_inside c video (layerX layerX' clientWidth : Z) :
  videoElement c = Some video ->
  (0 <= HTMLVideoElement.duration video)%Q ->
  (0 < clientWidth)%Z ->
  (0 <= layerX <= layerX')%Z -> (layerX' <= clientWidth)%Z ->
  exists time time' : Z,
    HTMLVideoElement.currentTime <$> videoElement (onProgressClick layerX clientWidth c)
      = Some (inject_Z time) /\
    HTMLVideoElement.currentTime <$> videoElement (onProgressClick layerX' clientWidth c)
      = Some (inject_Z time') /\
    (0 <= time <= time')%Z /\
    (time' <= Math.round (HTMLVideoElement.duration video))%Z.
Proof.
  intros Hvideo Hd Hw Hx Hx'.
  unfold onProgressClick, getDuration. rewrite Hvideo. simpl.
  rewrite Hvideo. simpl.
  set (d := HTMLVideoElement.duration video) in *.
  destruct (fraction_bounds layerX clientWidth Hw ltac:(lia)) as [Hf0 Hf1].
  destruct (fraction_bounds layerX' clientWidth Hw ltac:(lia)) as [Hf0' Hf1'].
  assert (Hmono : (inject_Z layerX / inject_Z clientWidth
                   <= inject_Z layerX' / inject_Z clientWidth)%Q).
  { assert (0 < inject_Z clientWidth)%Q
      by (change 0%Q with (inject_Z 0); by rewrite <- Zlt_Qlt).
    assert (inject_Z layerX <= inject_Z layerX')%Q by (rewrite <- Zle_Qle; lia).
    unfold Qdiv. apply Qmult_le_compat_r; [done |].
    apply Qlt_le_weak, Qinv_lt_0_compat. done. }
  set (f := (inject_Z layerX / inject_Z clientWidth)%Q) in *.
  set (f' := (inject_Z layerX' / inject_Z clientWidth)%Q) in *.
  assert (Hfd : (0 <= f * d)%Q) by (apply Qmult_le_0_compat; done).
  assert (Hff : (f * d <= f' * d)%Q) by (apply Qmult_le_compat_r; done).
  assert (Hf'd : (f' * d <= d)%Q).
  { apply Qle_trans with (1 * d)%Q; [by apply Qmult_le_compat_r |].
    rewrite Qmult_1_l. apply Qle_refl. }
  assert (He : forall g : Q, (g * 100 * d / 100 == g * d)%Q)
    by (intros g; field).
  eexists _, _. split; [reflexivity |]. split; [reflexivity |].
  split; [split |].
  - apply (round_le 0). rewrite He. exact Hfd.
  - apply round_le. rewrite !He. exact Hff.
  - apply round_le. rewrite He. exact Hf'd.
Qed.

(** X10. When the first buffered range that holds the position lies
    inside the clip (0 <= start <= end <= duration, duration > 0),
    the buffer fill is drawn inside the track up to rounding: the
    left offset and the width are between 0 and 100 percent, and
    together they reach at most 101. *)
Theorem X10_buffer_fill_inside_track c video i (s e : Q) :
  videoElement c = Some video ->
  HTMLVideoElement.buffered video !! i = Some (s, e) ->
  TimeRanges.holds (HTMLVideoElement.currentTime video) (s, e) ->
  (forall j r, (j < i)%nat -> HTMLVideoElement.buffered video !! j = Some r ->
               ~ TimeRanges.holds (HTMLVideoElement.currentTime video) r) ->
  (0 < HTMLVideoElement.duration video)%Q ->
  (0 <= s)%Q -> (e <= HTMLVideoElement.duration video)%Q ->
  exists left width : Z,
    bufferBarElement_left (view (bufferUpdate c)) = Some left /\
    bufferBarElement_width (view (bufferUpdate c)) = Some width /\
    (0 <= left <= 100)%Z /\ (0 <= width <= 100)%Z /\ (left + width <= 101)%Z.
Proof.
  intros Hvideo Hi Hholds Hfirst Hd Hs He.
  assert (Hupdate : bufferUpdate c =
            with_view (with_buffer
                (Math.round (e / HTMLVideoElement.duration video * 100
                             - s / HTMLVideoElement.duration video * 100)%Q)
                (Math.round (s / HTMLVideoElement.duration video * 100)%Q)) c).
  { unfold bufferUpdate. rewrite Hvideo. cbn [mbind JS.completion_bind].
    rewrite (BufferFacts.scan_first _ 0%nat _ i (s, e) Hi Hholds Hfirst).
    unfold TimeRanges.start, TimeRanges.end_.
    cbn [Nat.add mbind JS.completion_bind]. rewrite Hi. reflexivity. }
  rewrite Hupdate. simpl.
  set (d := HTMLVideoElement.duration video) in *.
  destruct Hholds as [Hst Hte]. simpl in Hst, Hte.
  assert (Hse : (s <= e)%Q) by lra.
  assert (Hsd : (0 <= s / d /\ s / d <= e / d /\ e / d <= 1)%Q).
  { split; [| split].
    - apply Qle_shift_div_l; [done | lra].
    - unfold Qdiv. apply Qmult_le_compat_r; [done |].
      apply Qlt_le_weak, Qinv_lt_0_compat. done.
    - apply Qle_shift_div_r; [done | lra]. }
  destruct Hsd as (H0 & H1 & H2).
  set (a := (s / d)%Q) in *. set (b := (e / d)%Q) in *.
  clearbody a b.
  eexists _, _. split; [reflexivity |]. split; [reflexivity |].
  assert (Hl : (0 <= Math.round (a * 100) <= 100)%Z).
  { split; [apply (round_le 0); lra |].
    apply Z.le_trans with (Math.round 100); [apply round_le; lra | done]. }
  assert (Hwd : (0 <= Math.round (b * 100 - a * 100) <= 100)%Z).
  { split; [apply (round_le 0); lra |].
    apply Z.le_trans with (Math.round 100); [apply round_le; lra | done]. }
  split; [done |]. split; [done |].
  unfold Math.round in *.
  pose proof (Qfloor_le (a * 100 + (1 # 2))) as Hfa.
  pose proof (Qfloor_le (b * 100 - a * 100 + (1 # 2))) as Hfb.
  assert (Hsum : (inject_Z (Qfloor (a * 100 + (1 # 2))
                            + Qfloor (b * 100 - a * 100 + (1 # 2)))
                  <= inject_Z 101)%Q).
  { rewrite inject_Z_plus. change (inject_Z 101) with 101%Q. lra. }
  by rewrite <- Zle_Qle in Hsum.
Qed.

End Widget.

(** X11. For a whole number n >= 0 of seconds the indicator shows n div
    60 and n mod 60, each padded to two digits. *)
Theorem X11_whole_seconds (n : Z) :
  (0 <= n)%Z ->
  generateTimeIndicator (inject_Z n)
  = (zeroPad (n / 60) ++ ":" ++ zeroPad (n mod 60))%string.
Proof.
  intros Hn. unfold generateTimeIndicator.
  assert (Hm : Math.floor (inject_Z n / 60) = (n / 60)%Z).
  { unfold Math.floor. symmetry. apply (Zdiv_Qdiv n 60). }
  rewrite Hm.
  assert (Hr : Math.round (inject_Z n - inject_Z (n / 60) * 60) = (n mod 60)%Z).
  { rewrite <- (round_inject_Z (n mod 60)). unfold Math.round.
    apply Qfloor_comp.
    rewrite (Z.mod_eq n 60) by lia.
    unfold Zminus. rewrite inject_Z_plus, inject_Z_opp, inject_Z_mult.
    change (inject_Z 60) with 60%Q. ring. }
  by rewrite Hr.
Qed.

(** X12. In the last half second of a minute the seconds are rounded up
    to 60 and the minute is not carried: for minute m >= 0 and
    60 m + 59.5 <= seconds < 60 m + 60 the indicator reads
    zeroPad(m), a colon, 60. *)
Theorem X12_last_half_second_reads_60 (seconds : Q) (m : Z) :
  (0 <= m)%Z ->
  (inject_Z m * 60 + 59.5 <= seconds)%Q ->
  (seconds < inject_Z m * 60 + 60)%Q ->
  generateTimeIndicator seconds = (zeroPad m ++ ":60")%string.
Proof.
  intros Hm Hlo Hhi. unfold generateTimeIndicator.
  assert (Hfloor : Math.floor (seconds / 60) = m).
  { assert (Hdiv : (seconds / 60 * 60 == seconds)%Q) by (field; discriminate).
    apply floor_unique; lra. }
  rewrite Hfloor.
  assert (Hround : Math.round (seconds - inject_Z m * 60) = 60%Z).
  { apply round_unique; change (inject_Z 60) with 60%Q; lra. }
  rewrite Hround. reflexivity.
Qed.

Lemma X9_witness :
  exists time time' : Z,
    HTMLVideoElement.currentTime <$> videoElement (onProgressClick 30 300 Samples.native)
      = Some (inject_Z time) /\
    HTMLVideoElement.currentTime <$> videoElement (onProgressClick 290 300 Samples.native)
      = Some (inject_Z time') /\
    (0 <= time <= time')%Z /\ (time' <= Math.round 40)%Z.
Proof.
  apply (X9_click_inside_seeks_inside Samples.native Samples.clip 30 290 300);
    [reflexivity | discriminate | lia | lia | lia].
Defined.

Lemma X10_witness :
  exists left width : Z,
    bufferBarElement_left (view (bufferUpdate Samples.native)) = Some left /\
    bufferBarElement_width (view (bufferUpdate Samples.native)) = Some width /\
    (0 <= left <= 100)%Z /\ (0 <= width <= 100)%Z /\ (left + width <= 101)%Z.
Proof.
  apply (X10_buffer_fill_inside_track Samples.native Samples.clip 1%nat 8%Q 30%Q).
  - reflexivity.
  - reflexivity.
  - split; discriminate.
  - intros j r Hj Hr [_ Hhi].
    destruct j as [|j]; [| lia]. injection Hr as <-. by apply Hhi.
  - reflexivity.
  - discriminate.
  - discriminate.
Defined.

Lemma X11_witness : generateTimeIndicator (inject_Z 754) = "12:34".
Proof. rewrite (X11_whole_seconds 754); [reflexivity | lia]. Defined.

Lemma X12_witness : generateTimeIndicator 119.75 = "01:60".
Proof.
  rewrite (X12_last_half_second_reads_60 119.75 1); [reflexivity | lia | |].
  - discriminate.
  - reflexivity.
Defined.

End BoundFacts.

(** ** One toggle *)

Module SyncFacts.
Import DOM DOMFacts VideoController ToggleFacts.

Section Widget.
Context {P : Type} {player : YT.Player P} {immediate : YT.Immediate P}.
Implicit Types c : Controller P.

(** X13. Whatever the state before, one mute toggle flips the mute
    flag and leaves the muted class, the native element and a vendor
    player that acts at once all in step with the new flag. *)
Theorem X13_toggleVolume_brings_in_step c :
  let c' := toggleVolume c in
  muted c' = negb (muted c) /\
  contains is_muted (classList (view c')) = muted c' /\
  (forall video, videoElement c' = Some video ->
                 HTMLVideoElement.muted video = muted c') /\
  (forall p, youtubePlayer c' = Some p -> YT.isMuted p = muted c').
Proof.
  intros c'. subst c'. unfold toggleVolume.
  destruct (muted c) eqn:Hmuted; simpl.
  - split; [done |]. split; [by apply contains_false, not_elem_of_remove |].
    split.
    + intros video. destruct (videoElement c); simpl; [| done]. by intros [= <-].
    + intros p. destruct (youtubePlayer c); simpl; [| done].
      intros [= <-]. apply YT.unMute_isMuted.
  - split; [done |]. split; [by apply contains_true, elem_of_add |].
    split.
    + intros video. destruct (videoElement c); simpl; [| done]. by intros [= <-].
    + intros p. destruct (youtubePlayer c); simpl; [| done].
      intros [= <-]. apply YT.mute_isMuted.
Qed.

(** X14. Whatever the playing class was before, one play/pause
    toggle on a widget with a backend (for the vendor player: one that
    acts at once) inverts the playing status and leaves the playing
    class in step with it. *)
Theorem X14_togglePlayPause_brings_in_step c playing :
  isPlaying c = Some playing ->
  let c' := togglePlayPause c in
  isPlaying c' = Some (negb playing) /\
  contains is_playing (classList (view c')) = negb playing.
Proof.
  intros Hplaying c'. subst c'. unfold togglePlayPause. rewrite Hplaying.
  destruct playing; simpl.
  - split; [apply (isPlaying_pause c true Hplaying) |].
    by apply contains_false, not_elem_of_remove.
  - split; [apply (isPlaying_play c false Hplaying) |].
    by apply contains_true, elem_of_add.
Qed.

End Widget.

Lemma X13_witness :
  muted (toggleVolume Samples.embedded) = true /\
  contains is_muted (classList (view (toggleVolume Samples.embedded))) = true.
Proof.
  destruct (X13_toggleVolume_brings_in_step Samples.embedded) as (H1 & H2 & _).
  split; [exact H1 | exact H2].
Defined.

Lemma X14_witness :
  isPlaying (togglePlayPause Samples.at_the_end) = Some false /\
  contains is_playing (classList (view (togglePlayPause Samples.at_the_end))) = false.
Proof.
  apply (X14_togglePlayPause_brings_in_step Samples.at_the_end true). reflexivity.
Defined.

End SyncFacts.

(** ** What construction leaves behind *)

Module BuiltFacts.
Import DOM DOMFacts VideoController ConstructionFacts.

Section Widget.
Context {P : Type} {player : YT.Player P}.
Implicit Types (c : Controller P) (w : World P).

(** The modal test looks for one class only. *)
Lemma in_modal_play c : in_modal (play c) = in_modal c.
Proof.
  unfold in_modal, root. simpl.
  destruct (parents (element c)) as [|parent ancestors]; [done |].
  cbn [firstParentByClass is_body classes].
  assert (Hsame : contains "modal" (add is_playing (classList (view c)))
                  = contains "modal" (classList (view c))).
  { unfold contains. apply bool_decide_ext. by apply elem_of_add_ne. }
  rewrite Hsame. by destruct (contains "modal" (classList (view c))).
Qed.


(** X16. On a container with its controls and its wrapper whose
    marker matches the pattern, construction in a page with a fresh
    loader builds no player: it queues one callback, injects the one
    script tag and leaves the timers alone.  When the vendor script
    reports in, the player is built from the id that [parseYouTubeId]
    finds in the marker (null when it finds none), with autoplay on
    exactly inside a modal, and the queue is empty. *)
Theorem X16_deferred_player element page_timers url :
  complete element = true ->
  JS.truthy (data_external element) = Some url ->
  is_Some (RegExp.String_match url youtu) ->
  exists w id w',
    constructor element page_timers YouTubeService.fresh = JS.Normal w /\
    youtubePlayer (this w) = None /\ videoElement (this w) = None /\
    YouTubeService._callbacks (YouTubeService.service (loader w))
      = [InitYouTubePlayer url] /\
    YouTubeService.scripts (YouTubeService.window (loader w))
      = [YouTubeService.iframe_api] /\
    timers w = page_timers /\
    YouTubeId.parseYouTubeId url = JS.Normal id /\
    onYouTubeIframeAPIReady w = Some (JS.Normal w') /\
    youtubePlayer (this w')
      = Some (YT.create YT.namespace id (if in_modal (this w) then 1%Z else 0%Z)) /\
    YouTubeService._callbacks (YouTubeService.service (loader w')) = [] /\
    timers w' = page_timers.
Proof.
  intros Hcomplete Hmarker [m Hmatch].
  destruct (complete_found element Hcomplete) as [Hcontrols Hwrapper].
  destruct (YouTubeIdFacts.parseYouTubeId_returns url) as [id Hid].
  unfold constructor, initControls. rewrite Hcontrols, Hmarker, Hmatch.
  cbn [mbind JS.completion_bind]. simpl.
  match goal with
  | |- context [if in_modal ?c0 then _ else _] => set (c := c0)
  end.
  assert (Hready : forall c1 : Controller P,
            VideoController.element c1 = element ->
            youtubePlayer c1 = None ->
            exists w',
              onYouTubeIframeAPIReady
                {| this := c1; timers := page_timers;
                   loader := YouTubeService.loadAPI (Some (InitYouTubePlayer url))
                               YouTubeService.fresh |}
              = Some (JS.Normal w') /\
              youtubePlayer (this w')
                = Some (YT.create YT.namespace id (if in_modal c1 then 1%Z else 0%Z)) /\
              YouTubeService._callbacks (YouTubeService.service (loader w')) = [] /\
              timers w' = page_timers).
  { intros c1 Helement Hnone.
    unfold onYouTubeIframeAPIReady. simpl.
    unfold initYouTubePlayer. simpl. rewrite Helement, Hwrapper, Hid.
    cbn [mbind JS.completion_bind]. eexists. by repeat split. }
  destruct (in_modal c) eqn:Hmodal.
  - destruct (Hready (play c) eq_refl eq_refl) as (w' & Hw' & Hplayer & Hqueue & Htimers).
    rewrite in_modal_play, Hmodal in Hplayer.
    eexists _, id, w'. split; [reflexivity |].
    cbn [this on_this]. rewrite in_modal_play, Hmodal.
    by repeat split.
  - destruct (Hready c eq_refl eq_refl) as (w' & Hw' & Hplayer & Hqueue & Htimers).
    rewrite Hmodal in Hplayer.
    eexists _, id, w'. split; [reflexivity |].
    cbn [this]. rewrite Hmodal.
    by repeat split.
Qed.

End Widget.

Lemma X16_witness :
  exists w w',
    constructor (P:=PromptPlayer.t) Samples.external_markup Samples.no_timers
      YouTubeService.fresh = JS.Normal w /\
    onYouTubeIframeAPIReady w = Some (JS.Normal w') /\
    PromptPlayer.videoId <$> youtubePlayer (this w') = Some (Some "dQw4w9WgXcQ").
Proof.
  destruct (X16_deferred_player (P:=PromptPlayer.t) Samples.external_markup
              Samples.no_timers "https://youtu.be/dQw4w9WgXcQ")
    as (w & id & w' & Hw & _ & _ & _ & _ & _ & Hid & Hready & Hplayer & _);
    [reflexivity | reflexivity | vm_compute; by eexists |].
  exists w, w'. split; [exact Hw |]. split; [exact Hready |].
  rewrite Hplayer. vm_compute in Hid. injection Hid as <-. reflexivity.
Defined.


End BuiltFacts.

(** ** Where a text is cut *)

Module TextFacts.
Import Text.

Lemma toIntegerOrInfinity_inject_Z (n : Z) : toIntegerOrInfinity (inject_Z n) = n.
Proof.
  unfold toIntegerOrInfinity.
  destruct (Qle_bool 0 (inject_Z n)); [apply Qfloor_Z | apply Qceiling_Z].
Qed.

(** The integer part of a number is below every whole number above
    that number. *)
Lemma toIntegerOrInfinity_lt (x : Q) (n : nat) :
  (x < inject_Z (Z.of_nat n))%Q -> (Z.to_nat (toIntegerOrInfinity x) <= n)%nat.
Proof.
  intros Hx. unfold toIntegerOrInfinity.
  destruct (Qle_bool 0 x) eqn:Hsign.
  - apply Qle_bool_iff in Hsign.
    pose proof (Qfloor_le x) as Hfloor.
    assert (inject_Z (Qfloor x) < inject_Z (Z.of_nat n))%Q as Hlt
        by (eapply Qle_lt_trans; eassumption).
    rewrite <- Zlt_Qlt in Hlt. lia.
  - assert (x < 0)%Q as Hneg.
    { apply Qnot_le_lt. intros Hle. apply Qle_bool_iff in Hle. congruence. }
    pose proof (Qle_ceiling x) as Hceiling.
    assert (Qceiling x <= 0)%Z as Hle; [| lia].
    destruct (Z.le_gt_cases (Qceiling x) 0) as [|Hpos]; [done |].
    exfalso. pose proof (Qceiling_lt x) as Hbelow.
    assert (inject_Z 0 <= inject_Z (Qceiling x - 1))%Q as H0
        by (rewrite <- Zle_Qle; lia).
    apply (Qlt_irrefl x). eapply Qlt_trans; [exact Hneg |].
    eapply Qle_lt_trans; [exact H0 | exact Hbelow].
Qed.

Lemma prefix_space (a : ascii) (rest : string) :
  prefix " " (String a rest) = bool_decide (a = " "%char).
Proof.
  cbn [prefix]. destruct (ascii_dec " " a) as [<-|Hne].
  - rewrite bool_decide_eq_true_2 by done. by destruct rest.
  - rewrite bool_decide_eq_false_2; [done | congruence].
Qed.

(** What [lastIndexOf] of a space finds. *)
Lemma lastIndexOf_space (s : string) :
  (lastIndexOf " " s = (-1)%Z /\ forall i, get i s <> Some " "%char) \/
  (exists k : nat,
      lastIndexOf " " s = Z.of_nat k /\ get k s = Some " "%char /\
      forall i, (k < i)%nat -> get i s <> Some " "%char).
Proof.
  induction s as [|a rest IH].
  - left. by split.
  - cbn [lastIndexOf]. destruct IH as [[-> Hnone] | (k & -> & Hk & Hlater)].
    + rewrite prefix_space. simpl (0 <=? -1)%Z. cbv iota.
      case_bool_decide as Ha.
      * right. exists 0%nat. subst a. split; [done |]. split; [done |].
        intros [|i] Hi; [lia |]. apply Hnone.
      * left. split; [done |]. intros [|i]; simpl; [congruence | apply Hnone].
    + right. exists (S k).
      destruct (Z.leb_spec 0 (Z.of_nat k)); [| lia].
      split; [lia |]. split; [done |].
      intros [|i] Hi; [lia |]. apply Hlater. lia.
Qed.

(** X17. A text no longer than [maxCharacters] comes back as it is.
    A longer one is cut at the last space among its first
    [maxCharacters] characters (the integer part of the number counts)
    and the append string follows what is kept; when there is no space
    among them, nothing of the text is kept and the result is the
    append string alone. *)
Theorem X17_intelligentCutText_cuts_at_last_space text maxCharacters append :
  let window := Z.to_nat (toIntegerOrInfinity maxCharacters) in
  let result := intelligentCutText text maxCharacters append in
  let longer := (maxCharacters < inject_Z (Z.of_nat (String.length text)))%Q in
  (~ longer -> result = text) /\
  (longer ->
     (window <= String.length text)%nat /\
     ((forall i, (i < window)%nat -> get i text <> Some " "%char) /\
      result = default "..." append
      \/
      exists k, (k < window)%nat /\ get k text = Some " "%char /\
        (forall i, (k < i < window)%nat -> get i text <> Some " "%char) /\
        result = (substring 0 k text ++ default "..." append)%string)).
Proof.
  intros window result longer. subst result. unfold intelligentCutText.
  split.
  - intros Hnot. apply Qnot_lt_le, ProgressFacts.lt_false in Hnot.
    by rewrite Hnot.
  - intros Hlonger. rewrite (proj2 (ProgressFacts.lt_true _ _) Hlonger).
    split; [by apply toIntegerOrInfinity_lt |].
    unfold substr_0. rewrite toIntegerOrInfinity_inject_Z. fold window.
    destruct (lastIndexOf_space (substring 0 window text))
      as [[-> Hnone] | (k & -> & Hk & Hlater)].
    + left. split.
      * intros i Hi. rewrite <- (Nat.add_0_r i).
        rewrite <- (substring_correct1 text 0 window i Hi). apply Hnone.
      * simpl. by destruct text.
    + right. exists k.
      assert (k < window)%nat as Hin.
      { destruct (Nat.lt_ge_cases k window) as [|Hge]; [done |].
        by rewrite (substring_correct2 text 0 window k Hge) in Hk. }
      split; [done |]. split.
      * rewrite <- (Nat.add_0_r k).
        by rewrite <- (substring_correct1 text 0 window k Hin).
      * split.
        -- intros i [Hki Hi]. rewrite <- (Nat.add_0_r i).
           rewrite <- (substring_correct1 text 0 window i Hi). by apply Hlater.
        -- by rewrite Nat2Z.id.
Qed.

Lemma X17_witness :
  exists k,
    get k "the quick brown fox" = Some " "%char /\
    intelligentCutText "the quick brown fox" 12 None
    = (substring 0 k "the quick brown fox" ++ "...")%string.
Proof.
  destruct (proj2 (X17_intelligentCutText_cuts_at_last_space
                     "the quick brown fox" 12 None) eq_refl)
    as [_ [[Hno _] | (k & _ & Hk & _ & Hresult)]].
  - exfalso. apply (Hno 3%nat); [vm_compute; lia | reflexivity].
  - exists k. split; [exact Hk | exact Hresult].
Defined.

End TextFacts.

(** ** Which callback an image load ends in *)

Module ImagesFacts.
Import Images.

(** Once the timer has run out nothing calls back any more. *)
Lemma deliver_all_timed_out signals src :
  deliver_all signals {| src := src; isTimedOut := true; timer := None |}
  = ({| src := src; isTimedOut := true; timer := None |}, []).
Proof.
  induction signals as [|sg rest IH]; [done |].
  destruct sg; simpl; unfold clearTimeout; simpl; by rewrite IH.
Qed.

(** After the image's event only the timer could still come, and it
    was cleared. *)
Lemma deliver_all_cleared signals src :
  List.filter is_event signals = [] ->
  deliver_all signals {| src := src; isTimedOut := false; timer := None |}
  = ({| src := src; isTimedOut := false; timer := None |}, []).
Proof.
  induction signals as [|sg rest IH]; [done |].
  destruct sg; simpl; [| done | done].
  intros Hrest. by rewrite (IH Hrest).
Qed.

(** X18. Of the signals that reach one [loadImage] (its timer, and at
    most one of the image's two events), the first decides and the
    others do nothing: a load event first gives one call of
    [onSuccess], the timer or an error event first gives one call of
    [onError], and that is the only call.  The [timeout] argument has
    no part in it. *)
Theorem X18_loadImage_first_signal_decides src timeout signals :
  one_event signals ->
  deliver_all signals (loadImage src timeout)
  = deliver_all (take 1 signals) (loadImage src None) /\
  (deliver_all signals (loadImage src timeout)).2
  = match signals with
    | [] => []
    | Load :: _ => [OnSuccess]
    | _ :: _ => [OnError]
    end.
Proof.
  unfold one_event. intros Hone.
  destruct signals as [|sg rest]; [done |].
  destruct sg; simpl; unfold clearTimeout; simpl.
  - by rewrite deliver_all_timed_out.
  - rewrite deliver_all_cleared; [done |].
    simpl in Hone. destruct (List.filter is_event rest); [done | simpl in Hone; lia].
  - rewrite deliver_all_cleared; [done |].
    simpl in Hone. destruct (List.filter is_event rest); [done | simpl in Hone; lia].
Qed.

Lemma X18_witness :
  (deliver_all [Load; Timeout] (loadImage (Some "a.png") (Some 50%Q))).2 = [OnSuccess].
Proof.
  apply (X18_loadImage_first_signal_decides (Some "a.png") (Some 50%Q) [Load; Timeout]).
  unfold one_event. simpl. lia.
Defined.

(** *** A batch of images *)

Lemma signals_for_snoc index events i sg :
  signals_for index (events ++ [(i, sg)])
  = signals_for index events ++ (if (i =? index)%nat then [sg] else []).
Proof.
  unfold signals_for. rewrite omap_app. simpl. by destruct (i =? index)%nat.
Qed.

Lemma run_snoc events event b : run (events ++ [event]) b = dispatch (run events b) event.
Proof. unfold run. by rewrite fold_left_app. Qed.

Lemma one_event_each_snoc events event :
  one_event_each (events ++ [event]) -> one_event_each events.
Proof.
  destruct event as [i sg]. intros Hone index. specialize (Hone index).
  unfold one_event in *. rewrite signals_for_snoc, List.filter_app, length_app in Hone. lia.
Qed.

Lemma count_insert (ls : list Loading) i l l' :
  ls !! i = Some l -> through l = false -> through l' = true ->
  List.length (List.filter through (<[i := l']> ls))
  = S (List.length (List.filter through ls)).
Proof.
  revert i. induction ls as [|x ls IH]; intros [|i] Hl Hold Hnew; try done.
  - simpl in Hl. injection Hl as ->. simpl. by rewrite Hold, Hnew.
  - simpl in *. destruct (through x); simpl; by rewrite (IH i).
Qed.

Lemma count_le (ls : list Loading) :
  (List.length (List.filter through ls) <= List.length ls)%nat.
Proof. apply List.filter_length_le. Qed.

Lemma count_all (ls : list Loading) :
  List.length (List.filter through ls) = List.length ls <->
  forall i l, ls !! i = Some l -> through l = true.
Proof.
  induction ls as [|x ls IH]; [done |].
  simpl. pose proof (count_le ls) as Hle. split.
  - intros Hlen [|i] l Hl.
    + simpl in Hl. injection Hl as ->.
      destruct (through l); [done | simpl in Hlen; lia].
    + destruct (through x); simpl in Hlen; [| lia].
      apply (proj1 IH) with i; [lia | done].
  - intros Hall. rewrite (Hall 0%nat x eq_refl). simpl. f_equal.
    apply IH. intros i l Hl. by apply (Hall (S i)).
Qed.

(** A signal for an image that is through changes nothing. *)
Lemma dispatch_through b i sg l :
  loadings b !! i = Some l -> timer l = None ->
  isTimedOut l = true \/ sg = Timeout ->
  dispatch b (i, sg) = b.
Proof.
  intros Hl Htimer Hcase. unfold dispatch. simpl. rewrite Hl.
  destruct l as [s timedOut t]. simpl in *. subst t.
  assert (deliver sg {| src := s; isTimedOut := timedOut; timer := None |}
          = ({| src := s; isTimedOut := timedOut; timer := None |}, [])) as ->.
  { destruct sg; [done | |]; destruct Hcase as [-> | ?]; done. }
  simpl. rewrite list_insert_id by done. by destruct b.
Qed.

Lemma updateIndex_eq ls current limit errors cs :
  updateIndex {| loadings := ls; currentIndex := current; max := limit;
                 hasErrors := errors; calls := cs |}
  = {| loadings := ls; currentIndex := current; max := limit; hasErrors := errors;
       calls := cs ++ if (current =? limit)%nat
                      then [if errors then OnError else OnSuccess] else [] |}.
Proof.
  unfold updateIndex. cbn [max loadings currentIndex hasErrors calls].
  destruct (current =? limit)%nat; [done | by rewrite app_nil_r].
Qed.

(** The first signal for an image counts it. *)
Lemma dispatch_first b i sg l delay :
  loadings b !! i = Some l -> timer l = Some delay -> isTimedOut l = false ->
  dispatch b (i, sg)
  = updateIndex
      {| loadings := <[i := {| src := src l;
                               isTimedOut := match sg with Timeout => true | _ => false end;
                               timer := None |}]> (loadings b);
         currentIndex := S (currentIndex b);
         max := max b;
         hasErrors := match sg with Load => hasErrors b | _ => true end;
         calls := calls b |}.
Proof.
  intros Hl Htimer Hflag. unfold dispatch. simpl. rewrite Hl.
  destruct l as [s timedOut t]. simpl in *. subst.
  by destruct sg.
Qed.

Lemma head_snoc {A} (l : list A) (x : A) : l <> [] -> head (l ++ [x]) = head l.
Proof. by destruct l. Qed.

(** What holds of a batch after any signals. *)
Lemma run_invariant root events :
  one_event_each events ->
  let n := List.length (images root) in
  let b := run events (loadImages root) in
  max b = n /\ List.length (loadings b) = n /\
  (forall i l, loadings b !! i = Some l ->
     (timer l = None <-> signals_for i events <> []) /\
     (isTimedOut l = true <-> head (signals_for i events) = Some Timeout)) /\
  currentIndex b = List.length (List.filter through (loadings b)) /\
  (hasErrors b = true <->
     exists i sg, (i < n)%nat /\ head (signals_for i events) = Some sg /\ sg <> Load) /\
  calls b = if (0 <? n)%nat && (currentIndex b =? n)%nat
            then [if hasErrors b then OnError else OnSuccess] else [].
Proof.
  intros Hone n. induction events as [|[i sg] events IH] using rev_ind.
  - simpl. unfold loadImages. fold n. simpl.
    split; [done |]. split; [by rewrite length_fmap |].
    split.
    { intros i l Hl. apply list_lookup_fmap_Some in Hl as (image & -> & _). by split. }
    split.
    { induction (images root) as [|image rest IHrest]; [done |]. simpl. apply IHrest. }
    split.
    { split; [done |]. by intros (i & sg & _ & ? & _). }
    destruct n; [done |]. simpl. done.
  - specialize (IH (one_event_each_snoc _ _ Hone)).
    rewrite run_snoc. simpl in IH. simpl.
    set (b := run events (loadImages root)) in *.
    destruct IH as (Hmax & Hlen & Hstate & Hcount & Herrors & Hcalls).
    assert (Hother : forall j, j <> i ->
              signals_for j (events ++ [(i, sg)]) = signals_for j events).
    { intros j Hj. rewrite signals_for_snoc.
      destruct (Nat.eqb_spec i j); [congruence |]. by rewrite app_nil_r. }
    assert (Hsame : signals_for i events <> [] ->
              forall j, (signals_for j (events ++ [(i, sg)]) <> []
                         <-> signals_for j events <> []) /\
                        head (signals_for j (events ++ [(i, sg)]))
                        = head (signals_for j events)).
    { intros Hhistory j. destruct (decide (j = i)) as [->|Hj].
      - rewrite signals_for_snoc, Nat.eqb_refl. split.
        + split; [done |]. intros _ Happ. by apply app_eq_nil in Happ as [? _].
        + by apply head_snoc.
      - by rewrite (Hother j Hj). }
    assert (Hkeep : signals_for i events <> [] -> dispatch b (i, sg) = b ->
              let b' := dispatch b (i, sg) in
              max b' = n /\ List.length (loadings b') = n /\
              (forall j l, loadings b' !! j = Some l ->
                 (timer l = None <-> signals_for j (events ++ [(i, sg)]) <> []) /\
                 (isTimedOut l = true
                  <-> head (signals_for j (events ++ [(i, sg)])) = Some Timeout)) /\
              currentIndex b' = List.length (List.filter through (loadings b')) /\
              (hasErrors b' = true <->
                 exists j sg', (j < n)%nat /\
                   head (signals_for j (events ++ [(i, sg)])) = Some sg' /\ sg' <> Load) /\
              calls b' = if (0 <? n)%nat && (currentIndex b' =? n)%nat
                         then [if hasErrors b' then OnError else OnSuccess] else []).
    { intros Hhistory ->. simpl.
      split; [done |]. split; [done |]. split.
      { intros j l Hl. destruct (Hsame Hhistory j) as [Hne Hhead].
        rewrite Hne, Hhead. by apply Hstate. }
      split; [done |]. split; [| done].
      rewrite Herrors. split; intros (j & sg' & Hj & Hhead & Hsg); exists j, sg';
        (split; [done |]); (split; [| done]);
        destruct (Hsame Hhistory j) as [_ Heq]; congruence. }
    destruct (loadings b !! i) as [l|] eqn:Hl.
    2:{ (* no such image *)
      assert (dispatch b (i, sg) = b) as -> by (unfold dispatch; simpl; by rewrite Hl).
      apply lookup_ge_None in Hl.
      split; [done |]. split; [done |]. split.
      { intros j l Hj. assert (j <> i) as Hne.
        { apply lookup_lt_Some in Hj. lia. }
        rewrite (Hother j Hne). by apply Hstate. }
      split; [done |]. split; [| done].
      rewrite Herrors.
      split; intros (j & sg' & Hj & Hhead & Hsg); exists j, sg';
        (split; [done |]); (split; [| done]);
        (rewrite (Hother j) in * by lia); done. }
    destruct (Hstate i l Hl) as [Htimer Hflag].
    destruct (decide (signals_for i events = [])) as [Hhistory|Hthrough].
    + (* the first signal for this image *)
      rewrite Hhistory in Htimer, Hflag.
      destruct (timer l) as [delay|] eqn:Hdelay; [| by destruct (proj1 Htimer eq_refl)].
      destruct (isTimedOut l) eqn:Htimed; [discriminate (proj1 Hflag eq_refl) |].
      rewrite (dispatch_first b i sg l delay Hl Hdelay Htimed).
      set (l' := {| src := src l;
                    isTimedOut := match sg with Timeout => true | _ => false end;
                    timer := None |}).
      assert (Hbelow : (currentIndex b < n)%nat).
      { rewrite Hcount, <- Hlen.
        destruct (Nat.lt_ge_cases (List.length (List.filter through (loadings b)))
                    (List.length (loadings b))) as [|Hge]; [done |].
        pose proof (count_le (loadings b)) as Hle.
        assert (through l = true) as Hl'.
        { apply (proj1 (count_all (loadings b))) with i; [lia | done]. }
        unfold through in Hl'. by rewrite Hdelay in Hl'. }
      assert (Hnone : calls b = []).
      { rewrite Hcalls. destruct (Nat.eqb_spec (currentIndex b) n); [lia |].
        by rewrite andb_false_r. }
      assert (Hpositive : (0 <? n)%nat = true) by (apply Nat.ltb_lt; lia).
      assert (Hthis : signals_for i (events ++ [(i, sg)]) = [sg]).
      { by rewrite signals_for_snoc, Hhistory, Nat.eqb_refl. }
      assert (Hcounted :
                S (currentIndex b)
                = List.length (List.filter through (<[i := l']> (loadings b)))).
      { rewrite Hcount. symmetry. apply count_insert with l; [done | | done].
        unfold through. by rewrite Hdelay. }
      assert (Hmarked :
                match sg with Load => hasErrors b | _ => true end = true <->
                exists j sg', (j < n)%nat /\
                  head (signals_for j (events ++ [(i, sg)])) = Some sg' /\ sg' <> Load).
      { split.
        - intros Hmark. destruct (decide (sg = Load)) as [->|Hsg].
          + apply Herrors in Hmark as (j & sg' & Hj & Hhead & Hsg').
            exists j, sg'. split; [done |]. split; [| done].
            rewrite Hother; [done |]. intros ->. by rewrite Hhistory in Hhead.
          + exists i, sg. split; [apply lookup_lt_Some in Hl; lia |].
            by rewrite Hthis.
        - intros (j & sg' & Hj & Hhead & Hsg'). destruct (decide (j = i)) as [->|Hne].
          + rewrite Hthis in Hhead. injection Hhead as <-. by destruct sg.
          + rewrite (Hother j Hne) in Hhead.
            assert (hasErrors b = true) as -> by (apply Herrors; by exists j, sg').
            by destruct sg. }
      assert (Hstate' : forall j x, <[i := l']> (loadings b) !! j = Some x ->
                (timer x = None <-> signals_for j (events ++ [(i, sg)]) <> []) /\
                (isTimedOut x = true
                 <-> head (signals_for j (events ++ [(i, sg)])) = Some Timeout)).
      { intros j x Hx. destruct (decide (j = i)) as [->|Hne].
        - rewrite list_lookup_insert_eq in Hx by (by apply lookup_lt_Some in Hl).
          injection Hx as <-. rewrite Hthis. simpl. split; [done |].
          destruct sg; split; done.
        - rewrite list_lookup_insert_ne in Hx by done.
          rewrite (Hother j Hne). by apply Hstate. }
      rewrite updateIndex_eq.
      cbn [max loadings currentIndex hasErrors calls]. rewrite Hmax, Hnone, Hpositive.
      split; [done |]. split; [by rewrite length_insert |].
      split; [done |]. split; [done |]. split; [done |].
      by destruct (S (currentIndex b) =? n)%nat.
    + (* a later signal for this image *)
      apply Hkeep; [done |].
      apply dispatch_through with l; [done | by apply Htimer |].
      destruct (isTimedOut l) eqn:Htimed; [by left | right].
      specialize (Hone i). unfold one_event in Hone.
      rewrite signals_for_snoc, Nat.eqb_refl, List.filter_app, length_app in Hone.
      destruct (signals_for i events) as [|first history]; [done |].
      destruct first; simpl in Hflag, Hone.
      * discriminate (proj2 Hflag eq_refl).
      * destruct sg; simpl in Hone; [done | lia | lia].
      * destruct sg; simpl in Hone; [done | lia | lia].
Qed.

Lemma loadings_updateIndex b : loadings (updateIndex b) = loadings b.
Proof. unfold updateIndex. by destruct (currentIndex b =? max b)%nat. Qed.

Lemma loadings_settle cs b : loadings (fold_left settle cs b) = loadings b.
Proof.
  revert b. induction cs as [|c cs IH]; intros b; [done |].
  simpl. rewrite IH. destruct c; unfold settle; by rewrite loadings_updateIndex.
Qed.

Lemma loadings_dispatch b i sg :
  loadings (dispatch b (i, sg))
  = match loadings b !! i with
    | None => loadings b
    | Some l => <[i := (deliver sg l).1]> (loadings b)
    end.
Proof.
  unfold dispatch. simpl. destruct (loadings b !! i) as [l|]; [| done].
  destruct (deliver sg l) as [l' cs]. by rewrite loadings_settle.
Qed.

Lemma src_deliver sg l : src (deliver sg l).1 = src l.
Proof. destruct sg; simpl; [| done | done]. by destruct (timer l). Qed.

Lemma src_run root events i l :
  loadings (run events (loadImages root)) !! i = Some l ->
  exists image, images root !! i = Some image /\ src l = chosen image.
Proof.
  revert i l. induction events as [|[j sg] events IH] using rev_ind; intros i l.
  - simpl. intros Hl. apply list_lookup_fmap_Some in Hl as (image & -> & Himage).
    by exists image.
  - rewrite run_snoc, loadings_dispatch.
    destruct (loadings (run events (loadImages root)) !! j) as [x|] eqn:Hx;
      [| apply IH].
    destruct (decide (i = j)) as [->|Hne].
    + rewrite list_lookup_insert_eq by (by apply lookup_lt_Some in Hx).
      intros [= <-]. rewrite src_deliver. by apply IH.
    + rewrite list_lookup_insert_ne by done. apply IH.
Qed.

(** X19. Whatever signals reach the images of a batch, in whatever
    order (each image firing at most one of its two events), the batch
    calls back at most once.  It does so exactly when there is at
    least one image and every image has had a signal, and with
    [onSuccess] exactly when the first signal of every image was its
    load event; a batch without images never calls back. *)
Theorem X19_loadImages_calls_back_once root events :
  one_event_each events ->
  let n := List.length (images root) in
  let b := run events (loadImages root) in
  (calls b = [] \/ calls b = [OnSuccess] \/ calls b = [OnError]) /\
  (calls b <> [] <->
     (0 < n)%nat /\ forall i, (i < n)%nat -> signals_for i events <> []) /\
  (calls b = [OnSuccess] <->
     (0 < n)%nat /\ forall i, (i < n)%nat -> head (signals_for i events) = Some Load).
Proof.
  intros Hone n b.
  destruct (run_invariant root events Hone)
    as (Hmax & Hlen & Hstate & Hcount & Herrors & Hcalls).
  fold n b in Hmax, Hlen, Hstate, Hcount, Herrors, Hcalls.
  assert (Hall : currentIndex b = n <->
                 forall i, (i < n)%nat -> signals_for i events <> []).
  { rewrite Hcount, <- Hlen, count_all. split.
    - intros Hthrough i Hi.
      apply lookup_lt_is_Some in Hi as [l Hl].
      apply (Hstate i l Hl). specialize (Hthrough i l Hl).
      unfold through in Hthrough. by destruct (timer l).
    - intros Hsignals i l Hl. unfold through.
      assert (timer l = None) as ->; [| done].
      apply (Hstate i l Hl), Hsignals. apply lookup_lt_Some in Hl. lia. }
  assert (Hcalled : calls b <> [] <-> (0 < n)%nat /\ currentIndex b = n).
  { rewrite Hcalls. destruct (Nat.ltb_spec 0 n), (Nat.eqb_spec (currentIndex b) n);
      simpl; split; try done; intros [? ?]; lia. }
  split; [| split].
  - rewrite Hcalls. destruct ((0 <? n)%nat && (currentIndex b =? n)%nat); [| by left].
    right. destruct (hasErrors b); [by right | by left].
  - by rewrite Hcalled, Hall.
  - split.
    + intros Hsuccess.
      assert (calls b <> []) as Hne by (by rewrite Hsuccess).
      apply Hcalled in Hne as [Hpositive Hfull]. split; [done |].
      intros i Hi. pose proof (proj1 Hall Hfull i Hi) as Hsignal.
      destruct (signals_for i events) as [|first history] eqn:Hhistory; [done |].
      simpl. f_equal. destruct (decide (first = Load)) as [|Hother]; [done |].
      assert (hasErrors b = true) as Htrue.
      { apply Herrors. exists i, first. by rewrite Hhistory. }
      rewrite Hcalls, Htrue in Hsuccess.
      by destruct ((0 <? n)%nat && (currentIndex b =? n)%nat).
    + intros [Hpositive Hloads].
      assert (currentIndex b = n) as Hfull.
      { apply Hall. intros i Hi. specialize (Hloads i Hi).
        by destruct (signals_for i events). }
      assert (hasErrors b = false) as Hfalse.
      { apply not_true_is_false. intros Htrue.
        apply Herrors in Htrue as (i & sg & Hi & Hhead & Hsg).
        rewrite (Hloads i Hi) in Hhead. congruence. }
      rewrite Hcalls, Hfull, Hfalse, Nat.eqb_refl.
      by destruct (Nat.ltb_spec 0 n); [| lia].
Qed.

(** X20. The source a load was started with stays with it through
    every signal.  For an element it is the image's [src] when that is
    longer than three characters and its [srcset] otherwise; for an
    array of strings it is [undefined] for every entry: the strings
    themselves are never requested. *)
Theorem X20_loadImages_requested_sources root events i l :
  loadings (run events (loadImages root)) !! i = Some l ->
  match root with
  | Element imgs =>
      exists e, imgs !! i = Some e /\
        src l = Some (if (3 <? String.length (img_src e))%nat
                      then img_src e else img_srcset e)
  | Sources array => (i < List.length array)%nat /\ src l = None
  end.
Proof.
  intros Hl. apply src_run in Hl as (image & Himage & ->).
  destruct root as [imgs|array]; simpl in Himage.
  - apply list_lookup_fmap_Some in Himage as (e & -> & He).
    exists e. split; [done |]. simpl.
    destruct (img_src e) as [|a rest]; [done |].
    change (String a rest =? "") with false. cbn [negb andb].
    by destruct (3 <? String.length (String a rest))%nat.
  - apply list_lookup_fmap_Some in Himage as (s & -> & Hs).
    split; [by apply lookup_lt_Some in Hs | done].
Qed.

Lemma X19_witness :
  calls (run [(1%nat, Load); (0%nat, Timeout); (0%nat, Load)]
             (loadImages (Sources ["a.png"; "b.png"]))) <> [] /\
  calls (run [(1%nat, Load); (0%nat, Load); (1%nat, Timeout)]
             (loadImages (Sources ["a.png"; "b.png"]))) = [OnSuccess].
Proof.
  assert (Hfirst : one_event_each [(1%nat, Load); (0%nat, Timeout); (0%nat, Load)]).
  { intros [|[|index]]; unfold one_event; simpl; lia. }
  assert (Hsecond : one_event_each [(1%nat, Load); (0%nat, Load); (1%nat, Timeout)]).
  { intros [|[|index]]; unfold one_event; simpl; lia. }
  split.
  - apply (X19_loadImages_calls_back_once (Sources ["a.png"; "b.png"]) _ Hfirst).
    split; [simpl; lia |]. intros [|[|i]] Hi; [done | done | simpl in Hi; lia].
  - apply (X19_loadImages_calls_back_once (Sources ["a.png"; "b.png"]) _ Hsecond).
    split; [simpl; lia |]. intros [|[|i]] Hi; [done | done | simpl in Hi; lia].
Defined.

Lemma X20_witness :
  exists e,
    [{| img_src := ""; img_srcset := "small.png 1x" |}] !! 0%nat = Some e /\
    src {| src := Some "small.png 1x"; isTimedOut := false; timer := None |}
    = Some (if (3 <? String.length (img_src e))%nat then img_src e else img_srcset e).
Proof.
  exact (X20_loadImages_requested_sources
           (Element [{| img_src := ""; img_srcset := "small.png 1x" |}])
           [(0%nat, Load)] 0
           {| src := Some "small.png 1x"; isTimedOut := false; timer := None |}
           eq_refl).
Defined.

End ImagesFacts.

(** ** Where an inserted element ends up *)

Module HelpersFacts.
Import Tree Helpers.

#[local] Arguments remove : simpl never.

Lemma remove_cons_eq node rest : remove node (node :: rest) = remove node rest.
Proof. unfold remove. simpl. by rewrite bool_decide_eq_true_2. Qed.

Lemma remove_cons_ne node x rest :
  x <> node -> remove node (x :: rest) = x :: remove node rest.
Proof. intros Hne. unfold remove. simpl. by rewrite bool_decide_eq_false_2. Qed.

Lemma remove_app node l1 l2 : remove node (l1 ++ l2) = remove node l1 ++ remove node l2.
Proof. apply List.filter_app. Qed.

Lemma remove_absent node l : node ∉ l -> remove node l = l.
Proof.
  induction l as [|x l IH]; [done |]. intros Hnot.
  apply not_elem_of_cons in Hnot as [Hne Hnot].
  rewrite remove_cons_ne by done. by rewrite IH.
Qed.

Lemma elem_of_remove node x l : x ∈ remove node l <-> x ∈ l /\ x <> node.
Proof.
  induction l as [|y l IH].
  - split; [by intros ?%elem_of_nil | by intros [?%elem_of_nil _]].
  - destruct (decide (y = node)) as [->|Hne].
    + rewrite remove_cons_eq, IH, elem_of_cons.
      split; [intros [? ?]; split; [by right | done] | intros [[->|?] ?]; done].
    + rewrite remove_cons_ne, !elem_of_cons, IH by done.
      split.
      * intros [->|[? ?]]; (split; [| done]); [by left | by right].
      * intros [[->|?] ?]; [by left | by right].
Qed.

Lemma Forall_remove (P : Node -> Prop) node l : Forall P l -> Forall P (remove node l).
Proof.
  rewrite !list.Forall_forall. intros HP x Hx. apply HP.
  by apply elem_of_remove in Hx as [? _].
Qed.

Lemma place_app node reference before after :
  reference ∉ before ->
  place node reference (before ++ reference :: after)
  = before ++ node :: reference :: after.
Proof.
  induction before as [|x before IH]; intros Hnot; simpl.
  - by rewrite decide_True.
  - apply not_elem_of_cons in Hnot as [Hne Hnot].
    rewrite decide_False by done. by rewrite IH.
Qed.

Lemma nextSibling_app node before after :
  node ∉ before -> nextSibling node (before ++ node :: after) = head after.
Proof.
  induction before as [|x before IH]; intros Hnot; simpl.
  - by rewrite decide_True.
  - apply not_elem_of_cons in Hnot as [Hne Hnot].
    rewrite decide_False by done. by apply IH.
Qed.

Lemma nextElementSibling_app node before after :
  node ∉ before ->
  nextElementSibling node (before ++ node :: after) = List.find is_element after.
Proof.
  induction before as [|x before IH]; intros Hnot; simpl.
  - by rewrite decide_True.
  - apply not_elem_of_cons in Hnot as [Hne Hnot].
    rewrite decide_False by done. by apply IH.
Qed.

(** The first element node of a list, and the other nodes before it. *)
Lemma find_is_element l :
  match List.find is_element l with
  | Some next =>
      exists between after,
        l = between ++ next :: after /\
        Forall (fun x => is_element x = false) between /\ is_element next = true
  | None => Forall (fun x => is_element x = false) l
  end.
Proof.
  induction l as [|x l IH]; simpl; [done |].
  destruct (is_element x) eqn:Hx.
  - by exists [], l.
  - destruct (List.find is_element l) as [next|].
    + destruct IH as (between & after & -> & Hbetween & Hnext).
      exists (x :: between), after. split; [done |]. split; [| done].
      by apply list.Forall_cons.
    + by apply list.Forall_cons.
Qed.

Lemma split_at (node : Node) (l : list Node) :
  base.NoDup l -> node ∈ l ->
  exists before after, l = before ++ node :: after /\ (node ∉ before) /\ (node ∉ after).
Proof.
  intros Hdup Hin. apply list_elem_of_split in Hin as (before & after & ->).
  exists before, after. split; [done |].
  apply list.NoDup_app in Hdup as (_ & Hcross & Hafter).
  apply list.NoDup_cons in Hafter as [Hnot _].
  split; [| done]. intros Hbefore. apply (Hcross node Hbefore). by left.
Qed.

Section Parent.
Variable contains_parent : Node -> bool.

(** X21. [prepend] makes the element the first child in every
    case, whether the parent is empty or not and wherever the
    element was before, also when it was a child of this parent or
    its first child already; the other children keep their order.
    It fails only for an element that holds the parent. *)
Theorem X21_prepend_first_child (childNodes : list Node) (element : Node) :
  base.NoDup childNodes ->
  prepend contains_parent childNodes element
  = if contains_parent element then Throw HierarchyRequestError
    else Normal (element :: remove element childNodes).
Proof.
  intros Hdup. unfold prepend, appendChild, Tree.insertBefore.
  destruct childNodes as [|first rest]; [done |].
  cbn [firstChild head].
  destruct (contains_parent element); [done |].
  rewrite bool_decide_eq_true_2 by (by left).
  apply list.NoDup_cons in Hdup as [Hfirst Hrest].
  destruct (decide (first = element)) as [->|Hne].
  - cbn [nextSibling]. rewrite decide_True by done.
    rewrite remove_cons_eq, remove_absent by done.
    destruct rest as [|second rest]; [done |].
    cbn [head place]. by rewrite decide_True.
  - rewrite remove_cons_ne by done. cbn [place]. by rewrite decide_True.
Qed.

(** X22. The helper [insertBefore] puts the element directly
    before the reference element, whatever kind of node was there,
    and leaves the other children in their order; with the element
    as its own reference nothing moves. *)
Theorem X22_insertBefore_directly_before (element refElement : Node)
    (childNodes : list Node) :
  base.NoDup childNodes -> refElement ∈ childNodes ->
  contains_parent element = false ->
  (element = refElement ->
     insertBefore contains_parent element refElement (Under true childNodes)
     = Normal childNodes) /\
  (element <> refElement ->
     exists before after,
       insertBefore contains_parent element refElement (Under true childNodes)
       = Normal (before ++ element :: refElement :: after) /\
       remove element childNodes = before ++ refElement :: after).
Proof.
  intros Hdup Hin Hfree. unfold insertBefore, Tree.insertBefore. simpl.
  rewrite Hfree, bool_decide_eq_true_2 by done.
  destruct (split_at refElement childNodes Hdup Hin)
    as (before & after & -> & Hbefore & Hafter).
  split.
  - intros ->. rewrite decide_True by done.
    rewrite nextSibling_app by done.
    rewrite remove_app, remove_cons_eq, !remove_absent by done.
    destruct after as [|next after]; simpl; [by rewrite app_nil_r |].
    rewrite place_app; [done |].
    intros Hnext. apply list.NoDup_app in Hdup as (_ & Hcross & _).
    apply (Hcross next Hnext). right. by left.
  - intros Hne. rewrite decide_False by done.
    rewrite remove_app, remove_cons_ne by done.
    exists (remove element before), (remove element after). split; [| done].
    rewrite place_app; [done |].
    intros Hx. by apply elem_of_remove in Hx as [? _].
Qed.

(** X23. After [insertAfter] the element comes after the reference
    element with nothing but nodes that are no elements (text,
    comments) between the two, and the other children keep their
    order: the element is the reference's next element sibling, and
    directly behind it only when no such node follows the
    reference. *)
Theorem X23_insertAfter_next_element (element refElement : Node)
    (childNodes : list Node) :
  base.NoDup childNodes -> refElement ∈ childNodes ->
  element <> refElement -> contains_parent element = false ->
  exists before between after,
    insertAfter contains_parent element refElement (Under true childNodes)
    = Normal (before ++ refElement :: between ++ element :: after) /\
    remove element childNodes = before ++ refElement :: between ++ after /\
    Forall (fun x => is_element x = false) between /\
    (is_element element = true ->
     nextElementSibling refElement
       (before ++ refElement :: between ++ element :: after) = Some element).
Proof.
  intros Hdup Hin Hne Hfree. unfold insertAfter. simpl.
  destruct (split_at refElement childNodes Hdup Hin)
    as (before & rest & -> & Hbefore & Hrest).
  rewrite nextElementSibling_app by done.
  assert (Hremoved : remove element (before ++ refElement :: rest)
                     = remove element before ++ refElement :: remove element rest).
  { rewrite remove_app, remove_cons_ne by done. done. }
  assert (Hfront : refElement ∉ remove element before).
  { intros Hx. by apply elem_of_remove in Hx as [? _]. }
  assert (Hnext : forall between after,
            Forall (fun x => is_element x = false) between ->
            is_element element = true ->
            nextElementSibling refElement
              (remove element before ++ refElement :: between ++ element :: after)
            = Some element).
  { intros between after Hbetween Helement.
    rewrite nextElementSibling_app by done.
    induction Hbetween as [|x between Hx _ IH]; simpl.
    - by rewrite Helement.
    - by rewrite Hx. }
  pose proof (find_is_element rest) as Hfind.
  destruct (List.find is_element rest) as [next|].
  - destruct Hfind as (between & after & -> & Hbetween & Helement).
    unfold Tree.insertBefore. rewrite Hfree.
    rewrite bool_decide_eq_true_2
      by (apply elem_of_app; right; right; apply elem_of_app; right; by left).
    assert (Hparts : base.NoDup (between ++ next :: after)).
    { apply list.NoDup_app in Hdup as (_ & _ & Hdup). by apply list.NoDup_cons in Hdup as [_ ?]. }
    assert (Hb : next ∉ between).
    { intros Hx. apply list.NoDup_app in Hparts as (_ & Hcross & _).
      apply (Hcross next Hx). by left. }
    assert (Ha : next ∉ after).
    { apply list.NoDup_app in Hparts as (_ & _ & Hparts).
      by apply list.NoDup_cons in Hparts as [? _]. }
    assert (Hout : next ∉ before).
    { intros Hx. apply list.NoDup_app in Hdup as (_ & Hcross & _).
      apply (Hcross next Hx). right. apply elem_of_app. right. by left. }
    destruct (decide (next = element)) as [->|Hother].
    + (* the element is the next element sibling already *)
      replace (before ++ refElement :: between ++ element :: after)
        with ((before ++ refElement :: between) ++ element :: after)
        by (by rewrite <- app_assoc).
      assert (Hfar : element ∉ before ++ refElement :: between).
      { intros Hx. apply elem_of_app in Hx as [Hx|Hx]; [done |].
        apply elem_of_cons in Hx as [Hx|Hx]; [done | done]. }
      rewrite nextSibling_app by done.
      rewrite remove_app, remove_cons_eq, !remove_absent by done.
      exists before, between, after.
      rewrite <- app_assoc. simpl.
      split; [| split; [done | split; [done |]]].
      * destruct after as [|following after]; simpl.
        -- by rewrite app_nil_r, <- app_assoc.
        -- replace (before ++ refElement :: between ++ following :: after)
             with ((before ++ refElement :: between) ++ following :: after)
             by (by rewrite <- app_assoc).
           rewrite place_app; [by rewrite <- app_assoc |].
           intros Hx. apply list.NoDup_app in Hdup as (_ & Hcross & Hdup).
           apply elem_of_app in Hx as [Hx|Hx].
           ++ apply (Hcross following Hx). right. apply elem_of_app. right.
              right. by left.
           ++ apply list.NoDup_cons in Hdup as [Hnot Hdup].
              apply elem_of_cons in Hx as [->|Hx].
              ** apply Hnot. apply elem_of_app. right. right. by left.
              ** apply list.NoDup_app in Hdup as (_ & Hcross' & _).
                 apply (Hcross' following Hx). right. by left.
      * rewrite remove_absent in Hnext by done. intros Htype. by apply Hnext.
    + rewrite Hremoved, remove_app, remove_cons_ne by done.
      exists (remove element before), (remove element between),
        (next :: remove element after).
      assert (Hclear : next ∉ remove element before ++ refElement
                               :: remove element between).
      { intros Hx. apply elem_of_app in Hx as [Hx|Hx].
        - by apply elem_of_remove in Hx as [? _].
        - apply elem_of_cons in Hx as [->|Hx]; [apply Hrest |].
          + apply elem_of_app. right. by left.
          + by apply elem_of_remove in Hx as [? _]. }
      split; [| split; [done | split; [by apply Forall_remove |]]].
      * replace (remove element before ++ refElement :: remove element between
                   ++ next :: remove element after)
          with ((remove element before ++ refElement :: remove element between)
                  ++ next :: remove element after)
          by (by rewrite <- app_assoc).
        rewrite place_app by done. by rewrite <- app_assoc.
      * apply Hnext. by apply Forall_remove.
  - unfold appendChild. rewrite Hfree, Hremoved.
    exists (remove element before), (remove element rest), [].
    split; [by rewrite <- app_assoc |].
    split; [by rewrite app_nil_r |].
    split; [by apply Forall_remove |].
    apply Hnext. by apply Forall_remove.
Qed.

End Parent.

Lemma X21_witness :
  prepend (fun _ => false)
    [{| id := 1; type := TEXT_NODE |}; {| id := 2; type := ELEMENT_NODE |}]
    {| id := 2; type := ELEMENT_NODE |}
  = Normal [{| id := 2; type := ELEMENT_NODE |}; {| id := 1; type := TEXT_NODE |}].
Proof.
  rewrite X21_prepend_first_child; [reflexivity |].
  apply (bool_decide_unpack _). vm_compute. exact I.
Defined.

Lemma X22_witness :
  exists before after,
    insertBefore (fun _ => false) {| id := 3; type := ELEMENT_NODE |}
      {| id := 2; type := ELEMENT_NODE |}
      (Under true [{| id := 1; type := TEXT_NODE |}; {| id := 2; type := ELEMENT_NODE |}])
    = Normal (before ++ {| id := 3; type := ELEMENT_NODE |}
                :: {| id := 2; type := ELEMENT_NODE |} :: after).
Proof.
  destruct (X22_insertBefore_directly_before (fun _ => false)
              {| id := 3; type := ELEMENT_NODE |} {| id := 2; type := ELEMENT_NODE |}
              [{| id := 1; type := TEXT_NODE |}; {| id := 2; type := ELEMENT_NODE |}])
    as [_ Hother].
  - apply (bool_decide_unpack _). vm_compute. exact I.
  - apply (bool_decide_unpack _). vm_compute. exact I.
  - reflexivity.
  - destruct Hother as (before & after & Hresult & _); [discriminate |].
    by exists before, after.
Defined.

Lemma X23_witness :
  exists before between after,
    insertAfter (fun _ => false) {| id := 3; type := ELEMENT_NODE |}
      {| id := 1; type := ELEMENT_NODE |}
      (Under true [{| id := 1; type := ELEMENT_NODE |}; {| id := 2; type := TEXT_NODE |}])
    = Normal (before ++ {| id := 1; type := ELEMENT_NODE |} :: between
                ++ {| id := 3; type := ELEMENT_NODE |} :: after) /\
    Forall (fun x => is_element x = false) between.
Proof.
  destruct (X23_insertAfter_next_element (fun _ => false)
              {| id := 3; type := ELEMENT_NODE |} {| id := 1; type := ELEMENT_NODE |}
              [{| id := 1; type := ELEMENT_NODE |}; {| id := 2; type := TEXT_NODE |}])
    as (before & between & after & Hresult & _ & Hbetween & _).
  - apply (bool_decide_unpack _). vm_compute. exact I.
  - apply (bool_decide_unpack _). vm_compute. exact I.
  - discriminate.
  - reflexivity.
  - by exists before, between, after.
Defined.

End HelpersFacts.

(** ** What a serialized form looks like *)

Module FormFacts.
Import URI Form.

Lemma every_append p s t : every p (s ++ t)%string = every p s && every p t.
Proof.
  induction s as [|c s IH]; [done |].
  rewrite RegExpFacts.append_String. simpl. by rewrite IH, andb_assoc.
Qed.

Lemma every_weaken (p q : ascii -> bool) s :
  (forall c, p c = true -> q c = true) -> every p s = true -> every q s = true.
Proof.
  intros Hpq. induction s as [|c s IH]; [done |]. simpl.
  rewrite !andb_true_iff. intros [Hc Hs]. split; [by apply Hpq | by apply IH].
Qed.

(** An encoded unit holds unreserved characters and percent signs
    only. *)
Lemma encode_unit_plain c :
  every (fun x => unreserved x || Ascii.eqb x "%") (encode_unit c) = true.
Proof.
  destruct c as [[] [] [] [] [] [] [] []]; vm_compute; reflexivity.
Qed.

Lemma encodeURIComponent_plain s :
  every (fun x => unreserved x || Ascii.eqb x "%") (encodeURIComponent s) = true.
Proof.
  induction s as [|c s IH]; [done |].
  cbn [encodeURIComponent]. by rewrite every_append, encode_unit_plain, IH.
Qed.

Lemma plain_query_char c :
  unreserved c || Ascii.eqb c "%" = true -> query_char c = true.
Proof.
  unfold query_char. rewrite !orb_true_iff. intros [Hc | Hc]; [by left | right].
  simpl. by rewrite Hc.
Qed.

Lemma unreserved_query_char c : unreserved c = true -> query_char c = true.
Proof. unfold query_char. by intros ->. Qed.

Lemma pair_query e value :
  every unreserved (name e) = true -> every query_char (pair e value) = true.
Proof.
  intros Hname. unfold pair. rewrite !every_append.
  rewrite (every_weaken _ _ _ unreserved_query_char Hname).
  by rewrite (every_weaken _ _ _ plain_query_char (encodeURIComponent_plain value)).
Qed.

Lemma join_query q :
  Forall (fun x => every query_char x = true) q ->
  every query_char (join "&" q) = true.
Proof.
  induction 1 as [|x q Hx Hq IH]; [done |].
  destruct q as [|y q]; [done |].
  change (join "&" (x :: y :: q)) with (x ++ "&" ++ join "&" (y :: q))%string.
  by rewrite !every_append, Hx, IH.
Qed.

(** What an element pushes does not depend on what was pushed
    before. *)
Lemma push_app q e : push q e = q ++ push [] e.
Proof.
  unfold push.
  repeat match goal with
         | |- context [if ?b then _ else _] => destruct b
         end; by rewrite ?app_nil_r.
Qed.

Lemma fold_push l q : fold_left push l q = q ++ fold_left push l [].
Proof.
  revert q. induction l as [|e l IH]; intros q; simpl; [by rewrite app_nil_r |].
  rewrite IH, (IH (push [] e)), push_app. by rewrite app_assoc.
Qed.

Lemma collected_app l1 l2 : collected (l1 ++ l2) = collected l2 ++ collected l1.
Proof.
  unfold collected. rewrite rev_app_distr, fold_left_app. apply fold_push.
Qed.

Lemma push_query e :
  every unreserved (name e) = true ->
  Forall (fun x => every query_char x = true) (push [] e).
Proof.
  intros Hname. unfold push.
  repeat match goal with
         | |- context [if ?b then _ else _] => destruct b
         end;
    try apply Forall_nil_2;
    try (apply Forall_app; split; [apply Forall_nil_2 |]);
    try (apply list.Forall_cons; split; [by apply pair_query | apply Forall_nil_2]).
  apply list.Forall_fmap, list.Forall_forall. intros o _. by apply pair_query.
Qed.

(** X24. The pairs of a form come out in the reverse of the order of
    its elements: what the elements of a later part of the form push
    comes before what those of an earlier part push. *)
Theorem X24_serialize_reverse_order (l1 l2 : list Control) :
  collected (l1 ++ l2) = collected l2 ++ collected l1 /\
  serialize (Some {| form_nodeName := "FORM"; elements := l1 ++ l2 |})
  = Some (join "&" (collected l2 ++ collected l1)).
Proof.
  split; [apply collected_app |]. unfold serialize. simpl. by rewrite collected_app.
Qed.

(** X25. Values are encoded and names are not: when the name of every
    element holds unreserved characters only, what [serialize] returns
    holds nothing but unreserved characters, percent signs and the
    separators = and &. *)
Theorem X25_serialize_query_characters (form : HTMLFormElement) (out : string) :
  serialize (Some form) = Some out ->
  (forall e, e ∈ elements form -> every unreserved (name e) = true) ->
  every query_char out = true.
Proof.
  unfold serialize. destruct (String.eqb (form_nodeName form) "FORM"); [| done].
  intros [= <-] Hnames. apply join_query.
  induction (elements form) as [|e l IH]; [by apply Forall_nil_2 |].
  change (e :: l) with ([e] ++ l). rewrite collected_app.
  apply Forall_app. split.
  - apply IH. intros x Hx. apply Hnames. by right.
  - unfold collected. simpl. apply push_query, Hnames. by left.
Qed.

Lemma X25_witness :
  every query_char "q=a%20b%26c&lang=%C3%A9" = true.
Proof.
  apply (X25_serialize_query_characters
           {| form_nodeName := "FORM";
              elements :=
                [ {| nodeName := "INPUT"; type := "hidden"; name := "lang";
                     value := String (ascii_of_nat 233) EmptyString;
                     checked := false; options := [] |};
                  {| nodeName := "INPUT"; type := "email"; name := "mail";
                     value := "a@b.c"; checked := false; options := [] |};
                  {| nodeName := "INPUT"; type := "text"; name := "q";
                     value := "a b&c"; checked := false; options := [] |} ] |}).
  - reflexivity.
  - intros e He. repeat (apply elem_of_cons in He as [->|He]; [reflexivity |]).
    by apply elem_of_nil in He.
Defined.

End FormFacts.
